(** * Atomic float64 containers of karrick/go-atomic-float

    A shallow embedding of the three containers of the package
    (the two compare-and-swap variants [atomicFloatCAS], [atomicFloatCAS2]
    and the lock-based [atomicFloatMutex]) together with the Go primitives
    they are written against: [uint64] and [float64] values, the bit
    reinterpretations of package [math], the primitives of [sync/atomic]
    and [sync.RWMutex]. *)

From Stdlib Require Import ZArith Lia Bool List Permutation Eqdep_dec.
From Stdlib Require Import Floats.SpecFloat.
Import ListNotations.
Local Open Scope Z_scope.

(** ** Go values: [uint64] and [float64] *)

Module GoValues.

(** A [uint64] is an integer in [0, 2^64). *)
Definition uint64 := Z.

Definition uint64_ok (u : uint64) : Prop := 0 <= u < 2 ^ 64.

(** A [float64] is an IEEE-754 binary64 datum: a sign bit, an 11-bit biased
    exponent field and a 52-bit fraction field.  NaN payloads and the sign
    of zero are part of the value. *)
Definition exp_mask : Z := Z.ones 11.
Definition frac_mask : Z := Z.ones 52.

Definition fields_ok (e m : Z) : bool :=
  (0 <=? e) && (e <=? exp_mask) && ((0 <=? m) && (m <=? frac_mask)).

Record float64 := MkFloat64 {
  sign : bool;
  expo : Z;
  frac : Z;
  float64_ok : fields_ok expo frac = true
}.

Lemma land_ones_range (a k : Z) : 0 <= k -> 0 <= Z.land a (Z.ones k) <= Z.ones k.
Proof.
  intros Hk. rewrite Z.land_ones by assumption. rewrite Z.ones_equiv.
  pose proof (Z.mod_pos_bound a (2 ^ k) ltac:(apply Z.pow_pos_nonneg; lia)). lia.
Qed.

Lemma masked_fields_ok (e m : Z) :
  fields_ok (Z.land e exp_mask) (Z.land m frac_mask) = true.
Proof.
  unfold fields_ok, exp_mask, frac_mask.
  pose proof (land_ones_range e 11 ltac:(lia)).
  pose proof (land_ones_range m 52 ltac:(lia)).
  rewrite !andb_true_iff, !Z.leb_le. lia.
Qed.

(** The datum with sign [s] and the low 11 bits of [e], low 52 bits of [m]. *)
Definition float64_of_fields (s : bool) (e m : Z) : float64 :=
  MkFloat64 s (Z.land e exp_mask) (Z.land m frac_mask) (masked_fields_ok e m).

(** [math.Float64bits] and [math.Float64frombits]: the binary64 interchange
    layout, sign in bit 63, exponent in bits 62..52, fraction in bits 51..0. *)
Definition Float64bits (f : float64) : uint64 :=
  Z.lor (Z.shiftl (Z.b2z (sign f)) 63) (Z.lor (Z.shiftl (expo f) 52) (frac f)).

Definition Float64frombits (b : uint64) : float64 :=
  float64_of_fields (Z.testbit b 63) (Z.shiftr b 52) b.

(** Two data with the same fields are the same datum. *)
Lemma float64_ext (x y : float64) :
  sign x = sign y -> expo x = expo y -> frac x = frac y -> x = y.
Proof.
  destruct x as [sx ex mx okx], y as [sy ey my oky]; simpl.
  intros -> -> ->. f_equal. apply UIP_dec. apply bool_dec.
Qed.

Lemma float64_fields_range (x : float64) :
  0 <= expo x < 2 ^ 11 /\ 0 <= frac x < 2 ^ 52.
Proof.
  destruct x as [s e m ok]; simpl. unfold fields_ok, exp_mask, frac_mask in ok.
  rewrite !andb_true_iff, !Z.leb_le, !Z.ones_equiv in ok. lia.
Qed.

Lemma land_shiftl_small (a b k : Z) :
  0 <= k -> 0 <= b < 2 ^ k -> Z.land (Z.shiftl a k) b = 0.
Proof.
  intros Hk Hb. apply Z.bits_inj'. intros n Hn.
  rewrite Z.land_spec, Z.bits_0.
  destruct (Z.ltb_spec n k) as [Hlt | Hge].
  - rewrite Z.shiftl_spec_low by assumption. reflexivity.
  - destruct (Z.eq_dec b 0) as [-> | Hnz].
    + rewrite Z.bits_0. apply andb_false_r.
    + rewrite (Z.bits_above_log2 b n), andb_false_r; [ reflexivity | lia | ].
      apply Z.lt_le_trans with k; [ apply Z.log2_lt_pow2; lia | assumption ].
Qed.

Lemma lor_shiftl_small (a b k : Z) :
  0 <= k -> 0 <= b < 2 ^ k -> Z.lor (Z.shiftl a k) b = a * 2 ^ k + b.
Proof.
  intros Hk Hb. pose proof (land_shiftl_small a b k Hk Hb) as Hdisj.
  rewrite <- Z.lxor_lor by assumption.
  rewrite <- Z.add_nocarry_lxor by assumption.
  rewrite Z.shiftl_mul_pow2 by assumption. reflexivity.
Qed.

Lemma Float64bits_sum (x : float64) :
  Float64bits x = Z.b2z (sign x) * 2 ^ 63 + expo x * 2 ^ 52 + frac x.
Proof.
  pose proof (float64_fields_range x) as [He Hm]. unfold Float64bits.
  rewrite (lor_shiftl_small (expo x) (frac x) 52) by lia.
  rewrite lor_shiftl_small by lia. lia.
Qed.

Lemma Float64bits_range (x : float64) : uint64_ok (Float64bits x).
Proof.
  pose proof (float64_fields_range x) as [He Hm]. unfold uint64_ok.
  rewrite Float64bits_sum. destruct (sign x); simpl Z.b2z; lia.
Qed.

(** *** Arithmetic on [float64]

    The value of a datum is read through the Standard Library's
    specification of IEEE-754 ([spec_float], precision 53, [emax] 1024);
    Go's [+] on [float64] is its round-to-nearest-even addition. *)
Definition prec : Z := 53.
Definition emax : Z := 1024.

Definition to_spec (x : float64) : spec_float :=
  if expo x =? 2047 then
    if frac x =? 0 then S754_infinity (sign x) else S754_nan
  else if expo x =? 0 then
    match frac x with
    | Zpos m => S754_finite (sign x) m (-1074)
    | _ => S754_zero (sign x)
    end
  else
    match frac x + 2 ^ 52 with
    | Zpos m => S754_finite (sign x) m (expo x - 1075)
    | _ => S754_zero (sign x)
    end.

Definition isNaN (x : float64) : bool :=
  (expo x =? 2047) && negb (frac x =? 0).

(** IEEE-754 leaves the sign and payload of a NaN result to the
    implementation, and so does Go: they are a parameter of the model.  The
    result is always a quiet NaN (fraction bit 51 set). *)
Class NaNRule := nan_payload : float64 -> float64 -> bool * Z.

Definition quiet_nan (sp : bool * Z) : float64 :=
  float64_of_fields (fst sp) 2047 (Z.lor (2 ^ 51) (snd sp)).

Definition of_spec (nan : float64) (r : spec_float) : float64 :=
  match r with
  | S754_zero s => float64_of_fields s 0 0
  | S754_infinity s => float64_of_fields s 2047 0
  | S754_nan => nan
  | S754_finite s m e =>
      if Zpos m <? 2 ^ 52 then float64_of_fields s 0 (Zpos m)
      else float64_of_fields s (e + 1075) (Zpos m - 2 ^ 52)
  end.

Definition fadd {rule : NaNRule} (x y : float64) : float64 :=
  of_spec (quiet_nan (nan_payload x y)) (SFadd prec emax (to_spec x) (to_spec y)).

(** Go's [*] on [float64]. *)
Definition fmul {rule : NaNRule} (x y : float64) : float64 :=
  of_spec (quiet_nan (nan_payload x y)) (SFmul prec emax (to_spec x) (to_spec y)).

(** Go's [*] on [int], 64 bits wide: the product wraps around. *)
Definition int_mul (x y : Z) : Z := (x * y + 2 ^ 63) mod 2 ^ 64 - 2 ^ 63.

(** The conversion [float64(n)] of an integer, rounding to nearest even. *)
Definition float64_of_int (n : Z) : float64 :=
  of_spec (float64_of_fields false 0 0) (binary_normalize prec emax n 0 false).

(** The integer a datum denotes, when it denotes one. *)
Definition int_of_float64 (x : float64) : option Z :=
  match to_spec x with
  | S754_zero _ => Some 0
  | S754_finite s m e =>
      if 0 <=? e then Some (cond_Zopp s (Zpos m * 2 ^ e))
      else if Zpos m mod 2 ^ (- e) =? 0 then Some (cond_Zopp s (Zpos m / 2 ^ (- e)))
      else None
  | _ => None
  end.

(** The rule of SSE2 ([ADDSD], as on amd64): the first NaN operand, quieted,
    else the second; the default NaN is negative with an empty payload. *)
#[export] Instance amd64_rule : NaNRule := fun x y =>
  if isNaN x then (sign x, frac x)
  else if isNaN y then (sign y, frac y)
  else (true, 0).


Arguments Float64bits : simpl never.
Arguments Float64frombits : simpl never.
Arguments fadd : simpl never.
Arguments fmul : simpl never.
Arguments float64_of_int : simpl never.

End GoValues.

Import GoValues.

(** ** Calls on a shared object

    A method call runs against the state of its receiver.  It returns a value
    and the new state, or it has not returned: it waits (for a lock, or for a
    compare-and-swap to succeed within the attempts it is given), or the
    runtime stops the program with a fatal error. *)
Inductive outcome (S A : Type) : Type :=
| Returns (v : A) (s : S)
| Waits
| Faults.
Arguments Returns {S A} v s.
Arguments Waits {S A}.
Arguments Faults {S A}.

Definition exec (S A : Type) : Type := S -> outcome S A.

Definition ret {S A} (v : A) : exec S A := fun s => Returns v s.

Definition bind {S A B} (m : exec S A) (k : A -> exec S B) : exec S B :=
  fun s => match m s with
           | Returns v s' => k v s'
           | Waits => Waits
           | Faults => Faults
           end.

Declare Scope exec_scope.
Delimit Scope exec_scope with exec.
Notation "x <- m ;; k" := (bind m (fun x => k))
  (at level 61, m at next level, right associativity) : exec_scope.
Notation "m ;; k" := (bind m (fun _ => k))
  (at level 61, right associativity) : exec_scope.
Local Open Scope exec_scope.

(** A call on a field of the receiver. *)
Definition on_field {S T A} (get : S -> T) (set : T -> S -> S) (m : exec T A) : exec S A :=
  fun s => match m (get s) with
           | Returns v t => Returns v (set t s)
           | Waits => Waits
           | Faults => Faults
           end.

(** ** Package [sync/atomic]: each primitive is one indivisible step on the
    addressed word. *)
Module atomic.

Definition LoadUint64 : exec uint64 uint64 :=
  fun w => Returns w w.

Definition StoreUint64 (val : uint64) : exec uint64 unit :=
  fun _ => Returns tt val.

Definition SwapUint64 (new : uint64) : exec uint64 uint64 :=
  fun w => Returns w new.

Definition CompareAndSwapUint64 (old new : uint64) : exec uint64 bool :=
  fun w => if w =? old then Returns true new else Returns false w.

End atomic.

(** ** Package [sync]: the reader/writer lock.  A lock that cannot be taken
    makes the caller wait; releasing a lock that is not held is a fatal
    error of the runtime. *)
Module sync.

Record RWMutex := MkRWMutex { writer : bool; readers : nat }.

(** The zero value is an unlocked mutex. *)
Definition unlocked : RWMutex := MkRWMutex false O.

Definition Lock : exec RWMutex unit :=
  fun m => match writer m, readers m with
           | false, O => Returns tt (MkRWMutex true O)
           | _, _ => Waits
           end.

Definition Unlock : exec RWMutex unit :=
  fun m => if writer m then Returns tt (MkRWMutex false (readers m)) else Faults.

Definition RLock : exec RWMutex unit :=
  fun m => if writer m then Waits else Returns tt (MkRWMutex false (S (readers m))).

Definition RUnlock : exec RWMutex unit :=
  fun m => match readers m with
           | O => Faults
           | S n => Returns tt (MkRWMutex (writer m) n)
           end.

End sync.

(** ** Other goroutines

    Between the load and the compare-and-swap of one attempt of [Add] another
    goroutine may have changed the word.  A schedule lists, attempt by
    attempt, the word such a goroutine left there ([None]: the word was not
    touched); past its end the caller runs alone. *)
Definition schedule := list (option uint64).

Definition preempted (other : option uint64) : exec uint64 unit :=
  fun w => Returns tt (match other with Some w' => w' | None => w end).

Definition next (sch : schedule) : option uint64 :=
  match sch with
  | other :: _ => other
  | [] => None
  end.

(** ** cas2.go *)
Module CAS2.
Section CAS2.
Context {rule : NaNRule}.

Record atomicFloatCAS2 := MkCAS2 { u64 : uint64 }.

Definition at_u64 {A} (m : exec uint64 A) : exec atomicFloatCAS2 A :=
  on_field u64 (fun w _ => MkCAS2 w) m.

Definition NewAtomicFloatCAS2 (initial : float64) : atomicFloatCAS2 :=
  MkCAS2 (Float64bits initial).

(** [Add]: the label [loop] is the entry of the recursion, [goto loop] the
    recursive call; [fuel] bounds the number of attempts. *)
Fixpoint Add (fuel : nat) (sch : schedule) (delta : float64) : exec atomicFloatCAS2 float64 :=
  match fuel with
  | O => fun _ => Waits
  | S fuel' =>
      oldBits <- at_u64 atomic.LoadUint64 ;;
      let newValue := fadd (Float64frombits oldBits) delta in
      let newBits := Float64bits newValue in
      at_u64 (preempted (next sch)) ;;
      swapped <- at_u64 (atomic.CompareAndSwapUint64 oldBits newBits) ;;
      if negb swapped then Add fuel' (tl sch) delta
      else ret newValue
  end.

Definition Load : exec atomicFloatCAS2 float64 :=
  bits <- at_u64 atomic.LoadUint64 ;;
  ret (Float64frombits bits).

Definition Store (new : float64) : exec atomicFloatCAS2 unit :=
  at_u64 (atomic.StoreUint64 (Float64bits new)).

Definition Swap (new : float64) : exec atomicFloatCAS2 float64 :=
  old <- at_u64 (atomic.SwapUint64 (Float64bits new)) ;;
  ret (Float64frombits old).

End CAS2.
End CAS2.

(** ** The first compare-and-swap variant (the source printed after the
    README): the same container with [Add] written as a [for] loop. *)
Module CAS.
Section CAS.
Context {rule : NaNRule}.

Record atomicFloatCAS := MkCAS { u64 : uint64 }.

Definition at_u64 {A} (m : exec uint64 A) : exec atomicFloatCAS A :=
  on_field u64 (fun w _ => MkCAS w) m.

Definition NewAtomicFloatCAS (initial : float64) : atomicFloatCAS :=
  MkCAS (Float64bits initial).

(** [Add]: one iteration of the [for] loop per unit of [fuel]. *)
Fixpoint Add (fuel : nat) (sch : schedule) (delta : float64) : exec atomicFloatCAS float64 :=
  match fuel with
  | O => fun _ => Waits
  | S fuel' =>
      oldBits <- at_u64 atomic.LoadUint64 ;;
      let newValue := fadd (Float64frombits oldBits) delta in
      let newBits := Float64bits newValue in
      at_u64 (preempted (next sch)) ;;
      swapped <- at_u64 (atomic.CompareAndSwapUint64 oldBits newBits) ;;
      if swapped then ret newValue
      else Add fuel' (tl sch) delta
  end.

Definition Load : exec atomicFloatCAS float64 :=
  bits <- at_u64 atomic.LoadUint64 ;;
  ret (Float64frombits bits).

Definition Store (new : float64) : exec atomicFloatCAS unit :=
  at_u64 (atomic.StoreUint64 (Float64bits new)).

Definition Swap (new : float64) : exec atomicFloatCAS float64 :=
  old <- at_u64 (atomic.SwapUint64 (Float64bits new)) ;;
  ret (Float64frombits old).

End CAS.
End CAS.

(** ** The lock-based variant *)
Module Mutex.
Section Mutex.
Context {rule : NaNRule}.

Record atomicFloatMutex := MkMutex { f64 : float64; l : sync.RWMutex }.

Definition at_l {A} (m : exec sync.RWMutex A) : exec atomicFloatMutex A :=
  on_field l (fun k a => MkMutex (f64 a) k) m.

Definition get_f64 : exec atomicFloatMutex float64 :=
  fun a => Returns (f64 a) a.

Definition set_f64 (v : float64) : exec atomicFloatMutex unit :=
  fun a => Returns tt (MkMutex v (l a)).

Definition NewAtomicFloatMutex (initial : float64) : atomicFloatMutex :=
  MkMutex initial sync.unlocked.

(** [a.f64 += delta] reads the field, adds and writes the field.  Its
    addition is an instruction of its own: the rule it takes for the sign and
    payload of a NaN need not be the rule of the addition of [cas2.go]. *)
Definition Add (delta : float64) : exec atomicFloatMutex float64 :=
  at_l sync.Lock ;;
  cur <- get_f64 ;;
  set_f64 (fadd cur delta) ;;
  new <- get_f64 ;;
  at_l sync.Unlock ;;
  ret new.

Definition Load : exec atomicFloatMutex float64 :=
  at_l sync.RLock ;;
  f <- get_f64 ;;
  at_l sync.RUnlock ;;
  ret f.

Definition Store (new : float64) : exec atomicFloatMutex unit :=
  at_l sync.Lock ;;
  set_f64 new ;;
  at_l sync.Unlock.

Definition Swap (new : float64) : exec atomicFloatMutex float64 :=
  at_l sync.Lock ;;
  old <- get_f64 ;;
  set_f64 new ;;
  at_l sync.Unlock ;;
  ret old.

End Mutex.
End Mutex.

(** ** benchmark_test.go: the interface [af64] and the check of [runQ] *)
Class af64 (T : Type) := {
  Add : float64 -> exec T float64;
  Load : exec T float64
}.

(** A [for i := 0; i < n; i++ { body }] loop. *)
Definition times {S A} (n : Z) (body : exec S A) : exec S unit :=
  N.iter (Z.to_N n) (fun rest => body ;; rest) (ret tt).

(** Go's [!=] on [float64]. *)
Definition float64_ne (x y : float64) : bool :=
  negb (SFeqb (to_spec x) (to_spec y)).

(** [WaitGroup.Add] on a new wait group: a negative counter is a panic. *)
Definition WaitGroup_Add {T} (delta : Z) : exec T unit :=
  fun s => if delta <? 0 then Faults else Returns tt s.

(** [runQ] under the schedule that runs the goroutines one after the other,
    each to its end: the adders, then the loaders (the sum a loader keeps is
    local and dropped), then the final check.  The result tells whether
    [tb.Errorf] was called. *)
Definition runQ {rule : NaNRule} {T} {af : af64 T}
    (adderCount loaderCount operationCount : Z) : exec T bool :=
  WaitGroup_Add adderCount ;;
  WaitGroup_Add loaderCount ;;
  times adderCount (times operationCount (Add (float64_of_int 1))) ;;
  times loaderCount (times operationCount Load) ;;
  got <- Load ;;
  let want := fmul (float64_of_int 1) (float64_of_int (int_mul adderCount operationCount)) in
  ret (float64_ne got want).

(** [n] calls of [Add(1)] one after the other, then a [Load]. *)
Definition adds_then_Load {T} {af : af64 T} (n : Z) : exec T float64 :=
  times n (Add (float64_of_int 1)) ;; Load.

(** A caller that runs alone needs one attempt; [fuel] is the number of
    further attempts it is allowed. *)
#[export] Instance CAS_af64 {rule : NaNRule} (fuel : nat) : af64 CAS.atomicFloatCAS :=
  {| Add := CAS.Add (S fuel) []; Load := CAS.Load |}.

#[export] Instance CAS2_af64 {rule : NaNRule} (fuel : nat) : af64 CAS2.atomicFloatCAS2 :=
  {| Add := CAS2.Add (S fuel) []; Load := CAS2.Load |}.

#[export] Instance Mutex_af64 {rule : NaNRule} : af64 Mutex.atomicFloatMutex :=
  {| Add := Mutex.Add; Load := Mutex.Load |}.




Fixpoint run {S A B} (step : A -> exec S B) (cs : list A) : exec S (list B) :=
  match cs with
  | [] => ret []
  | c :: cs' => r <- step c ;; rs <- run step cs' ;; ret (r :: rs)
  end.

(** ** Vocabulary of the statements *)

(** The words other goroutines leave in the container during a schedule. *)
Fixpoint writes (sch : schedule) : list uint64 :=
  match sch with
  | [] => []
  | Some w :: sch' => w :: writes sch'
  | None :: sch' => writes sch'
  end.

(** The word in the container when the compare-and-swap of an attempt runs. *)
Definition word_at_swap (sch : schedule) (old : uint64) : uint64 :=
  match next sch with
  | Some w => w
  | None => old
  end.

(** The word read by the attempt of [Add] that succeeds: the first word
    loaded that is still in the container when the compare-and-swap runs. *)
Fixpoint preimage (sch : schedule) (old : uint64) : uint64 :=
  match sch with
  | [] => old
  | _ :: sch' =>
      if word_at_swap sch old =? old then old
      else preimage sch' (word_at_swap sch old)
  end.

(** The lock is free when nobody holds it. *)
Definition free (k : sync.RWMutex) : bool :=
  negb (sync.writer k) && (sync.readers k =? 0)%nat.

(** What a call leaves for an observer of the word. *)
Definition on_word {S A} (word : S -> uint64) (o : outcome S A) : outcome uint64 A :=
  match o with
  | Returns v s => Returns v (word s)
  | Waits => Waits
  | Faults => Faults
  end.





Definition one : float64 := float64_of_int 1.

(** The total the adders reach: exact up to [2^53], where it stays. *)
Definition total (n : Z) : float64 := float64_of_int (Z.min n (2 ^ 53)).

(** What one [Add(1)] of a caller alone does to each container. *)
Definition CAS2_step {rule : NaNRule} (a : CAS2.atomicFloatCAS2) : CAS2.atomicFloatCAS2 :=
  CAS2.MkCAS2 (Float64bits (fadd (Float64frombits (CAS2.u64 a)) one)).

Definition Mutex_step {rule : NaNRule} (m : Mutex.atomicFloatMutex) : Mutex.atomicFloatMutex :=
  Mutex.MkMutex (fadd (Mutex.f64 m) one) (Mutex.l m).

Ltac exec_unfold :=
  unfold bind, ret, on_field, preempted,
    atomic.LoadUint64, atomic.StoreUint64, atomic.SwapUint64, atomic.CompareAndSwapUint64,
    sync.Lock, sync.Unlock, sync.RLock, sync.RUnlock.

(** ** benchmark_test.go: [BenchmarkProducerConsumer] *)
Definition itemsPerLoader : Z := 1000.

(** The sub-benchmarks ["cas"], ["cas2"] and ["lock"] of one count. *)
Inductive sub_benchmark : Type := sub_cas | sub_cas2 | sub_lock.

(** What a check does to the [testing.B] it reports to: [tb.Errorf] marks it
    as failed.  A panic, or a call that never returns, stops the run. *)
Definition reported_to_B {T} (check : exec T bool) (af : T) : exec bool unit :=
  fun failed => match check af with
                | Returns e _ => Returns tt (failed || e)
                | Waits => Waits
                | Faults => Faults
                end.

(** The closure [c]: for one count, each sub-benchmark runs its loop [b.N]
    times, every time on a new container.  [N] is the [b.N] the framework
    chooses for a sub-benchmark; the goroutines of [runQ] run one after the
    other. *)
Definition c {rule : NaNRule} (N : Z -> sub_benchmark -> Z) (fuel : nat) (count : Z)
    : exec bool unit :=
  times (N count sub_cas)
    (reported_to_B (runQ (af := CAS_af64 fuel) count count itemsPerLoader)
       (CAS.NewAtomicFloatCAS (float64_of_int 0))) ;;
  times (N count sub_cas2)
    (reported_to_B (runQ (af := CAS2_af64 fuel) count count itemsPerLoader)
       (CAS2.NewAtomicFloatCAS2 (float64_of_int 0))) ;;
  times (N count sub_lock)
    (reported_to_B (runQ (af := Mutex_af64) count count itemsPerLoader)
       (Mutex.NewAtomicFloatMutex (float64_of_int 0))).

Definition BenchmarkProducerConsumer {rule : NaNRule} (N : Z -> sub_benchmark -> Z)
    (fuel : nat) : exec bool unit :=
  c N fuel 10 ;;
  c N fuel 100 ;;
  c N fuel 1000 ;;
  c N fuel 10000 ;;
  c N fuel 100000.

(** ** More vocabulary *)

(** Every entry of the schedule puts a word into the container that differs
    from the one the attempt has just loaded. *)
Fixpoint all_changing (sch : schedule) (old : uint64) : bool :=
  match sch with
  | [] => true
  | Some w :: sch' => negb (w =? old) && all_changing sch' w
  | None :: _ => false
  end.



(** The sum of a list of integers, and the running totals from [k]. *)
Definition sumZ (ds : list Z) : Z := fold_right Z.add 0 ds.

Fixpoint totals (k : Z) (ds : list Z) : list Z :=
  match ds with
  | [] => []
  | d :: ds' => (k + d) :: totals (k + d) ds'
  end.

(** The words other adders leave: the bits of their running totals. *)
Definition adders_schedule (k : Z) (ds : list Z) : schedule :=
  map (fun t => Some (Float64bits (float64_of_int t))) (totals k ds).

(** What one [Add(1)] of a caller alone does to the first compare-and-swap
    variant. *)
Definition CAS_step {rule : NaNRule} (a : CAS.atomicFloatCAS) : CAS.atomicFloatCAS :=
  CAS.MkCAS (Float64bits (fadd (Float64frombits (CAS.u64 a)) one)).

(** * Properties *)

(** ** The bit reinterpretation *)
Section Reinterpretation.

Lemma Float64frombits_sign (b : uint64) : sign (Float64frombits b) = Z.testbit b 63.
Proof. reflexivity. Qed.

Lemma Float64frombits_expo (b : uint64) : expo (Float64frombits b) = (b / 2 ^ 52) mod 2 ^ 11.
Proof.
  change (expo (Float64frombits b)) with (Z.land (Z.shiftr b 52) (Z.ones 11)).
  rewrite Z.land_ones, Z.shiftr_div_pow2 by lia. reflexivity.
Qed.

Lemma Float64frombits_frac (b : uint64) : frac (Float64frombits b) = b mod 2 ^ 52.
Proof.
  change (frac (Float64frombits b)) with (Z.land b (Z.ones 52)).
  rewrite Z.land_ones by lia. reflexivity.
Qed.

Lemma Float64frombits_Float64bits (x : float64) : Float64frombits (Float64bits x) = x.
Proof.
  pose proof (float64_fields_range x) as [He Hm].
  pose proof (Float64bits_sum x) as Hsum.
  assert (Hb : 0 <= Z.b2z (sign x) <= 1) by (destruct (sign x); simpl; lia).
  apply float64_ext.
  - rewrite Float64frombits_sign. apply Z.b2z_inj.
    rewrite Z.testbit_spec' by lia. rewrite Hsum.
    replace ((Z.b2z (sign x) * 2 ^ 63 + expo x * 2 ^ 52 + frac x) / 2 ^ 63)
      with (Z.b2z (sign x)).
    + apply Z.mod_small. lia.
    + apply Z.div_unique with (expo x * 2 ^ 52 + frac x); lia.
  - rewrite Float64frombits_expo, Hsum.
    replace ((Z.b2z (sign x) * 2 ^ 63 + expo x * 2 ^ 52 + frac x) / 2 ^ 52)
      with (Z.b2z (sign x) * 2 ^ 11 + expo x).
    + symmetry. apply Z.mod_unique with (Z.b2z (sign x)); lia.
    + apply Z.div_unique with (frac x); lia.
  - rewrite Float64frombits_frac, Hsum.
    symmetry. apply Z.mod_unique with (Z.b2z (sign x) * 2 ^ 11 + expo x); lia.
Qed.

Lemma Float64bits_Float64frombits (b : uint64) :
  uint64_ok b -> Float64bits (Float64frombits b) = b.
Proof.
  unfold uint64_ok. intros Hb.
  rewrite Float64bits_sum, Float64frombits_sign, Float64frombits_expo, Float64frombits_frac.
  rewrite Z.testbit_spec' by lia.
  rewrite (Z.mod_small (b / 2 ^ 63) 2)
    by (split; [ apply Z.div_pos; lia | apply Z.div_lt_upper_bound; lia ]).
  pose proof (Z.div_mod b (2 ^ 52) ltac:(lia)) as H52.
  pose proof (Z.div_mod (b / 2 ^ 52) (2 ^ 11) ltac:(lia)) as H11.
  rewrite Z.div_div in H11 by lia.
  change (2 ^ 52 * 2 ^ 11) with (2 ^ 63) in H11. lia.
Qed.

Lemma Float64bits_inj (x y : float64) : Float64bits x = Float64bits y -> x = y.
Proof.
  intros H. rewrite <- (Float64frombits_Float64bits x), <- (Float64frombits_Float64bits y).
  now rewrite H.
Qed.

End Reinterpretation.

(** ** Rounding of binary64 sums that need no rounding *)
Section Rounding.

Lemma iter_pos_iter {A} (f : A -> A) (p : positive) (x : A) :
  iter_pos f p x = Pos.iter f x p.
Proof.
  revert x. induction p as [p IHp | p IHp | ]; intros x; simpl.
  - rewrite !IHp, !Pos.iter_swap. reflexivity.
  - rewrite !IHp. reflexivity.
  - reflexivity.
Qed.

Lemma pos_iter_xO (m j : positive) : Zpos (Pos.iter xO m j) = Zpos m * 2 ^ Zpos j.
Proof.
  induction j as [ | j IHj] using Pos.peano_ind.
  - simpl Pos.iter. lia.
  - rewrite Pos.iter_succ, Pos2Z.inj_xO, IHj, Pos2Z.inj_succ, Z.pow_succ_r by lia. lia.
Qed.

(** Shifting out [j] zeros is exact. *)
Lemma shr_exact (m j : positive) :
  iter_pos shr_1 j (Build_shr_record (Zpos (Pos.iter xO m j)) false false)
  = Build_shr_record (Zpos m) false false.
Proof.
  rewrite iter_pos_iter. induction j as [ | j IHj] using Pos.peano_ind.
  - reflexivity.
  - rewrite (Pos.iter_succ_r j _ shr_1), (Pos.iter_succ j _ xO). simpl shr_1. exact IHj.
Qed.

Lemma digits2_pos_bounds (m : positive) :
  2 ^ (Zpos (digits2_pos m) - 1) <= Zpos m < 2 ^ Zpos (digits2_pos m).
Proof.
  induction m as [m IHm | m IHm | ]; simpl digits2_pos.
  - rewrite Pos2Z.inj_succ.
    replace (Z.succ (Zpos (digits2_pos m)) - 1) with (Z.succ (Zpos (digits2_pos m) - 1)) by lia.
    rewrite !Z.pow_succ_r by lia. lia.
  - rewrite Pos2Z.inj_succ.
    replace (Z.succ (Zpos (digits2_pos m)) - 1) with (Z.succ (Zpos (digits2_pos m) - 1)) by lia.
    rewrite !Z.pow_succ_r by lia. lia.
  - simpl. lia.
Qed.

Lemma digits2_pos_unique (m : positive) (d : Z) :
  2 ^ (d - 1) <= Zpos m < 2 ^ d -> Zpos (digits2_pos m) = d.
Proof.
  intros Hd. pose proof (digits2_pos_bounds m) as Hm.
  assert (0 < d).
  { destruct (Z.ltb_spec 0 d) as [ | Hle ]; [ assumption | ].
    destruct (Z.eq_dec d 0) as [-> | ]; [ simpl in Hd; lia | ].
    rewrite (Z.pow_neg_r 2 d) in Hd by lia. lia. }
  destruct (Z.lt_trichotomy (Zpos (digits2_pos m)) d) as [Hlt | [Heq | Hgt]].
  - pose proof (Z.pow_le_mono_r 2 (Zpos (digits2_pos m)) (d - 1) ltac:(lia) ltac:(lia)). lia.
  - assumption.
  - pose proof (Z.pow_le_mono_r 2 d (Zpos (digits2_pos m) - 1) ltac:(lia) ltac:(lia)). lia.
Qed.

Lemma digits2_pos_shift (M m : positive) (j : Z) :
  0 <= j -> Zpos M = Zpos m * 2 ^ j ->
  Zpos (digits2_pos M) = Zpos (digits2_pos m) + j.
Proof.
  intros Hj HM. pose proof (digits2_pos_bounds m) as Hm.
  apply digits2_pos_unique. rewrite HM.
  replace (Zpos (digits2_pos m) + j - 1) with (Zpos (digits2_pos m) - 1 + j) by lia.
  rewrite !Z.pow_add_r by lia.
  assert (0 < 2 ^ j) by (apply Z.pow_pos_nonneg; lia). nia.
Qed.

(** A 53-bit significand with an exponent in range is its own rounding. *)
Lemma binary_round_aux_canonical (s : bool) (m : positive) (e : Z) :
  Zpos (digits2_pos m) = 53 -> -1074 <= e <= 971 ->
  binary_round_aux prec emax s (Zpos m) e loc_Exact = S754_finite s m e.
Proof.
  intros Hd He. unfold binary_round_aux, shr_fexp, fexp, emin, prec, emax.
  cbn [Zdigits2 shr_record_of_loc]. rewrite Hd.
  replace (Z.max (53 + e - 53) (3 - 1024 - 53) - e) with 0 by lia.
  cbn [shr shr_m loc_of_shr_record round_nearest_even Zdigits2 shr_record_of_loc].
  rewrite Hd.
  replace (Z.max (53 + e - 53) (3 - 1024 - 53) - e) with 0 by lia.
  cbn [shr shr_m].
  replace (e <=? 1024 - 53) with true by (symmetry; apply Z.leb_le; lia).
  reflexivity.
Qed.

(** Rounding [m * 2^j] at exponent [e - j] is [m] at exponent [e]. *)
Lemma binary_round_aux_shifted (s : bool) (M m : positive) (e j : Z) :
  0 <= j -> Zpos M = Zpos m * 2 ^ j ->
  Zpos (digits2_pos m) = 53 -> -1074 <= e <= 971 ->
  binary_round_aux prec emax s (Zpos M) (e - j) loc_Exact = S754_finite s m e.
Proof.
  intros Hj HM Hd He.
  pose proof (digits2_pos_shift M m j Hj HM) as HdM.
  destruct j as [ | jp | jp ]; [ | | lia ].
  - replace (e - 0) with e by lia.
    assert (M = m) as -> by lia.
    now apply binary_round_aux_canonical.
  - assert (M = Pos.iter xO m jp) as -> by (apply Pos2Z.inj; rewrite pos_iter_xO; exact HM).
    unfold binary_round_aux, shr_fexp, fexp, emin, prec, emax.
    cbn [Zdigits2 shr_record_of_loc]. rewrite HdM, Hd.
    replace (Z.max (53 + Z.pos jp + (e - Z.pos jp) - 53) (3 - 1024 - 53) - (e - Z.pos jp))
      with (Zpos jp) by lia.
    cbn [shr]. rewrite shr_exact.
    cbn [shr_m loc_of_shr_record round_nearest_even Zdigits2 shr_record_of_loc].
    rewrite Hd.
    replace (Z.max (53 + (e - Z.pos jp + Z.pos jp) - 53) (3 - 1024 - 53) - (e - Z.pos jp + Z.pos jp))
      with 0 by lia.
    cbn [shr shr_m].
    replace (e - Z.pos jp + Z.pos jp <=? 1024 - 53) with true by (symmetry; apply Z.leb_le; lia).
    f_equal. lia.
Qed.

Lemma shl_align_stays (m : positive) (e e' : Z) : e <= e' -> shl_align m e e' = (m, e).
Proof.
  intros Hle. unfold shl_align. destruct (e' - e) eqn:Hd; (reflexivity || lia).
Qed.

Lemma binary_round_shifted (s : bool) (M m : positive) (e j : Z) :
  0 <= j -> Zpos M = Zpos m * 2 ^ j ->
  Zpos (digits2_pos m) = 53 -> -1074 <= e <= 971 ->
  binary_round prec emax s M (e - j) = S754_finite s m e.
Proof.
  intros Hj HM Hd He.
  pose proof (digits2_pos_shift M m j Hj HM) as HdM.
  unfold binary_round. rewrite shl_align_stays.
  - now apply binary_round_aux_shifted.
  - unfold fexp, emin, prec, emax. lia.
Qed.

(** Rounding a short significand [p] pads it to 53 bits. *)
Lemma binary_round_padded (s : bool) (p m : positive) (e i : Z) :
  0 <= i -> Zpos m = Zpos p * 2 ^ i ->
  Zpos (digits2_pos m) = 53 -> -1074 <= e - i <= 971 ->
  binary_round prec emax s p e = S754_finite s m (e - i).
Proof.
  intros Hi Hm Hd He.
  pose proof (digits2_pos_shift m p i Hi Hm) as Hdp.
  unfold binary_round, shl_align, fexp, emin, prec, emax.
  replace (Z.max (Z.pos (digits2_pos p) + e - 53) (3 - 1024 - 53)) with (e - i) by lia.
  replace (e - i - e) with (- i) by lia.
  destruct i as [ | ip | ip ]; [ | | lia ].
  - assert (m = p) as -> by lia. cbn [Z.opp]. replace (e - 0) with e in * by lia.
    now apply binary_round_aux_canonical.
  - cbn [Z.opp].
    assert (Pos.iter xO p ip = m) as -> by (apply Pos2Z.inj; rewrite pos_iter_xO; now rewrite Hm).
    now apply binary_round_aux_canonical.
Qed.

Lemma shl_align_fst (m : positive) (e e' : Z) :
  e' <= e -> Zpos (fst (shl_align m e e')) = Zpos m * 2 ^ (e - e').
Proof.
  intros Hle. unfold shl_align. destruct (e' - e) as [ | d | d ] eqn:Hd.
  - replace (e - e') with 0 by lia. simpl fst. lia.
  - lia.
  - simpl fst. rewrite pos_iter_xO. f_equal. f_equal. lia.
Qed.

Lemma land_ones_small (a k : Z) : 0 <= k -> 0 <= a < 2 ^ k -> Z.land a (Z.ones k) = a.
Proof. intros Hk Ha. rewrite Z.land_ones by assumption. now apply Z.mod_small. Qed.

(** Normal numbers survive the passage through the fields. *)
Lemma to_spec_of_spec_normal (nan : float64) (s : bool) (m : positive) (e : Z) :
  Zpos (digits2_pos m) = 53 -> -1074 <= e <= 971 ->
  to_spec (of_spec nan (S754_finite s m e)) = S754_finite s m e.
Proof.
  intros Hd He. pose proof (digits2_pos_bounds m) as Hm. rewrite Hd in Hm.
  change (2 ^ (53 - 1)) with (2 ^ 52) in Hm.
  unfold of_spec. replace (Zpos m <? 2 ^ 52) with false by (symmetry; apply Z.ltb_ge; lia).
  unfold to_spec, float64_of_fields, exp_mask, frac_mask; cbn [expo frac sign].
  rewrite (land_ones_small (e + 1075) 11) by lia.
  rewrite (land_ones_small (Zpos m - 2 ^ 52) 52) by lia.
  replace (e + 1075 =? 2047) with false by (symmetry; apply Z.eqb_neq; lia).
  replace (e + 1075 =? 0) with false by (symmetry; apply Z.eqb_neq; lia).
  replace (Zpos m - 2 ^ 52 + 2 ^ 52) with (Zpos m) by lia.
  f_equal. lia.
Qed.

(** Every positive integer below [2^53] has a 53-bit padding. *)
Lemma padding_exists (p : positive) :
  Zpos p < 2 ^ 53 ->
  exists (m : positive) (i : Z),
    0 <= i <= 52 /\ Zpos m = Zpos p * 2 ^ i /\ Zpos (digits2_pos m) = 53 /\
    i = 53 - Zpos (digits2_pos p).
Proof.
  intros Hp. pose proof (digits2_pos_bounds p) as Hb.
  assert (Hd : Zpos (digits2_pos p) <= 53).
  { destruct (Z.leb_spec (Zpos (digits2_pos p)) 53) as [ | Hgt ]; [ assumption | ].
    pose proof (Z.pow_le_mono_r 2 53 (Zpos (digits2_pos p) - 1) ltac:(lia) ltac:(lia)). lia. }
  set (i := 53 - Zpos (digits2_pos p)).
  assert (Hpos : 0 < Zpos p * 2 ^ i) by (assert (0 < 2 ^ i) by (apply Z.pow_pos_nonneg; lia); nia).
  exists (Z.to_pos (Zpos p * 2 ^ i)), i.
  assert (Hm : Zpos (Z.to_pos (Zpos p * 2 ^ i)) = Zpos p * 2 ^ i) by (apply Z2Pos.id; exact Hpos).
  repeat split; try lia.
  rewrite (digits2_pos_shift _ p i ltac:(lia) Hm). lia.
Qed.

Lemma binary_normalize_int (p m : positive) (i : Z) :
  0 <= i <= 52 -> Zpos m = Zpos p * 2 ^ i -> Zpos (digits2_pos m) = 53 ->
  binary_normalize prec emax (Zpos p) 0 false = S754_finite false m (- i).
Proof.
  intros Hi Hm Hd. unfold binary_normalize.
  rewrite (binary_round_padded false p m 0 i) by (assumption || lia).
  f_equal.
Qed.

(** One more: the sum of an integer below [2^53 - 1] and [1.0], before it is
    stored back into the fields. *)
Lemma SFadd_one (p mp mq : positive) (ip iq : Z) :
  0 <= ip <= 52 -> Zpos mp = Zpos p * 2 ^ ip -> Zpos (digits2_pos mp) = 53 ->
  0 <= iq <= 52 -> Zpos mq = (Zpos p + 1) * 2 ^ iq -> Zpos (digits2_pos mq) = 53 ->
  SFadd prec emax (S754_finite false mp (- ip)) (S754_finite false 4503599627370496 (-52))
  = S754_finite false mq (- iq).
Proof.
  intros Hip Hmp Hdp Hiq Hmq Hdq. unfold SFadd.
  rewrite (Z.min_r (- ip) (-52)) by lia. cbn [cond_Zopp].
  pose proof (shl_align_fst mp (- ip) (-52) ltac:(lia)) as HA.
  pose proof (shl_align_fst 4503599627370496 (-52) (-52) ltac:(lia)) as HB.
  set (A := fst (shl_align mp (- ip) (-52))) in *.
  set (B := fst (shl_align 4503599627370496 (-52) (-52))) in *.
  change (Zpos A + Zpos B) with (Zpos (A + B)). unfold binary_normalize.
  transitivity (binary_round prec emax false (A + B) (- iq - (52 - iq)));
    [ f_equal; lia | ].
  apply binary_round_shifted; try lia.
  rewrite Pos2Z.inj_add, HA, HB, Hmp, Hmq.
  replace (- ip - -52) with (52 - ip) by lia.
  replace (-52 - -52) with 0 by lia.
  rewrite <- !Z.mul_assoc, <- !Z.pow_add_r by lia.
  replace (ip + (52 - ip)) with 52 by lia.
  replace (iq + (52 - iq)) with 52 by lia.
  change (2 ^ 0) with 1. change (Zpos 4503599627370496) with (2 ^ 52). lia.
Qed.

Lemma to_spec_one : to_spec (float64_of_int 1) = S754_finite false 4503599627370496 (-52).
Proof. vm_compute. reflexivity. Qed.

(** Counting in [float64] is exact up to [2^53] ... *)
Lemma fadd_int_succ {rule : NaNRule} (n : Z) :
  0 <= n < 2 ^ 53 ->
  fadd (float64_of_int n) (float64_of_int 1) = float64_of_int (n + 1).
Proof.
  intros Hn.
  destruct (Z.eq_dec n 0) as [-> | Hn0];
    [ apply float64_ext; vm_compute; reflexivity | ].
  destruct (Z.eq_dec n (2 ^ 53 - 1)) as [-> | Hn1];
    [ apply float64_ext; vm_compute; reflexivity | ].
  destruct n as [ | p | p ]; try lia.
  destruct (padding_exists p ltac:(lia)) as (mp & ip & Hip & Hmp & Hdp & _).
  destruct (padding_exists (p + 1) ltac:(lia)) as (mq & iq & Hiq & Hmq & Hdq & _).
  rewrite Pos2Z.inj_add in Hmq.
  assert (Hp : to_spec (float64_of_int (Zpos p)) = S754_finite false mp (- ip)).
  { unfold float64_of_int. rewrite (binary_normalize_int p mp ip) by assumption.
    apply to_spec_of_spec_normal; (assumption || lia). }
  unfold fadd. rewrite to_spec_one, Hp.
  rewrite (SFadd_one p mp mq ip iq) by assumption.
  unfold float64_of_int. change (Zpos p + 1) with (Zpos (p + 1)).
  rewrite (binary_normalize_int (p + 1) mq iq) by (assumption || (rewrite Pos2Z.inj_add; assumption)).
  reflexivity.
Qed.

(** ... and stops there: [2^53 + 1.0] rounds back to [2^53]. *)
Lemma fadd_int_stuck {rule : NaNRule} :
  fadd (float64_of_int (2 ^ 53)) (float64_of_int 1) = float64_of_int (2 ^ 53).
Proof. apply float64_ext; vm_compute; reflexivity. Qed.

(** The factor [1] changes no integer up to [2^53]. *)
Lemma fmul_one_int {rule : NaNRule} (n : Z) :
  0 <= n <= 2 ^ 53 ->
  fmul (float64_of_int 1) (float64_of_int n) = float64_of_int n.
Proof.
  intros Hn.
  destruct (Z.eq_dec n 0) as [-> | Hn0];
    [ apply float64_ext; vm_compute; reflexivity | ].
  destruct (Z.eq_dec n (2 ^ 53)) as [-> | Hn1];
    [ apply float64_ext; vm_compute; reflexivity | ].
  destruct n as [ | p | p ]; try lia.
  destruct (padding_exists p ltac:(lia)) as (mp & ip & Hip & Hmp & Hdp & _).
  assert (Hp : to_spec (float64_of_int (Zpos p)) = S754_finite false mp (- ip)).
  { unfold float64_of_int. rewrite (binary_normalize_int p mp ip) by assumption.
    apply to_spec_of_spec_normal; (assumption || lia). }
  unfold fmul. rewrite to_spec_one, Hp. unfold SFmul. cbn [xorb].
  replace (-52 + - ip) with (- ip - 52) by lia.
  rewrite (binary_round_aux_shifted false (4503599627370496 * mp) mp (- ip) 52)
    by (assumption || lia).
  unfold float64_of_int. rewrite (binary_normalize_int p mp ip) by assumption.
  reflexivity.
Qed.

End Rounding.

(** ** The calls, one by one *)

Section CAS2Calls.
Context {rule : NaNRule}.
Import CAS2.

Lemma CAS2_Load_eq (a : atomicFloatCAS2) :
  CAS2.Load a = Returns (Float64frombits (u64 a)) a.
Proof. destruct a. reflexivity. Qed.

Lemma CAS2_Store_eq (new : float64) (a : atomicFloatCAS2) :
  CAS2.Store new a = Returns tt (MkCAS2 (Float64bits new)).
Proof. destruct a. reflexivity. Qed.

Lemma CAS2_Swap_eq (new : float64) (a : atomicFloatCAS2) :
  CAS2.Swap new a = Returns (Float64frombits (u64 a)) (MkCAS2 (Float64bits new)).
Proof. destruct a. reflexivity. Qed.

(** One attempt of [Add]. *)
Lemma CAS2_Add_attempt (fuel : nat) (sch : schedule) (delta : float64) (a : atomicFloatCAS2) :
  CAS2.Add (S fuel) sch delta a =
    let newValue := fadd (Float64frombits (u64 a)) delta in
    if word_at_swap sch (u64 a) =? u64 a
    then Returns newValue (MkCAS2 (Float64bits newValue))
    else CAS2.Add fuel (tl sch) delta (MkCAS2 (word_at_swap sch (u64 a))).
Proof.
  destruct a as [w]. cbn [CAS2.Add u64]. unfold at_u64. exec_unfold. cbn [u64].
  unfold word_at_swap. destruct (next sch) as [w' | ].
  - destruct (w' =? w); reflexivity.
  - destruct (w =? w); reflexivity.
Qed.

Lemma CAS2_Add_alone (fuel : nat) (delta : float64) (a : atomicFloatCAS2) :
  CAS2.Add (S fuel) [] delta a =
    Returns (fadd (Float64frombits (u64 a)) delta)
            (MkCAS2 (Float64bits (fadd (Float64frombits (u64 a)) delta))).
Proof.
  rewrite CAS2_Add_attempt. unfold word_at_swap. cbn [next].
  rewrite Z.eqb_refl. reflexivity.
Qed.

Lemma preimage_in (sch : schedule) :
  forall old : uint64, In (preimage sch old) (old :: writes sch).
Proof.
  induction sch as [ | other sch IH ]; intros old.
  - left. reflexivity.
  - cbn [preimage]. unfold word_at_swap. cbn [next].
    destruct other as [w | ].
    + destruct (w =? old); [ left; reflexivity | ].
      right. cbn [writes]. apply IH.
    + rewrite Z.eqb_refl. left. reflexivity.
Qed.

(** With more attempts than the schedule has entries, [Add] returns: the
    attempt that succeeds read the word [preimage sch (u64 a)]. *)
Lemma CAS2_Add_returns (sch : schedule) :
  forall (spare : nat) (delta : float64) (a : atomicFloatCAS2),
    CAS2.Add (S (length sch + spare)) sch delta a =
      Returns (fadd (Float64frombits (preimage sch (u64 a))) delta)
              (MkCAS2 (Float64bits (fadd (Float64frombits (preimage sch (u64 a))) delta))).
Proof.
  induction sch as [ | other sch IH ]; intros spare delta a.
  - apply CAS2_Add_alone.
  - rewrite CAS2_Add_attempt. cbn zeta. cbn [preimage length Nat.add tl].
    destruct (word_at_swap (other :: sch) (u64 a) =? u64 a); [ reflexivity | ].
    rewrite IH. reflexivity.
Qed.

End CAS2Calls.

Section CASCalls.
Context {rule : NaNRule}.
Import CAS.

Lemma CAS_Add_attempt (fuel : nat) (sch : schedule) (delta : float64) (a : atomicFloatCAS) :
  CAS.Add (S fuel) sch delta a =
    let newValue := fadd (Float64frombits (u64 a)) delta in
    if word_at_swap sch (u64 a) =? u64 a
    then Returns newValue (MkCAS (Float64bits newValue))
    else CAS.Add fuel (tl sch) delta (MkCAS (word_at_swap sch (u64 a))).
Proof.
  destruct a as [w]. cbn [CAS.Add u64]. unfold at_u64. exec_unfold. cbn [u64].
  unfold word_at_swap. destruct (next sch) as [w' | ].
  - destruct (w' =? w); reflexivity.
  - destruct (w =? w); reflexivity.
Qed.

End CASCalls.

Section MutexCalls.
Context {rule : NaNRule}.
Import Mutex.

Lemma Mutex_Load_eq (a : atomicFloatMutex) :
  Mutex.Load a = if sync.writer (l a) then Waits else Returns (f64 a) a.
Proof.
  destruct a as [x [w r]]. unfold Mutex.Load, at_l, get_f64. exec_unfold. cbn.
  destruct w; reflexivity.
Qed.

Lemma Mutex_Store_eq (new : float64) (a : atomicFloatMutex) :
  Mutex.Store new a = if free (l a) then Returns tt (MkMutex new (l a)) else Waits.
Proof.
  destruct a as [x [w r]]. unfold Mutex.Store, at_l, set_f64, free. exec_unfold. cbn.
  destruct w, r; reflexivity.
Qed.

Lemma Mutex_Swap_eq (new : float64) (a : atomicFloatMutex) :
  Mutex.Swap new a = if free (l a) then Returns (f64 a) (MkMutex new (l a)) else Waits.
Proof.
  destruct a as [x [w r]]. unfold Mutex.Swap, at_l, set_f64, get_f64, free. exec_unfold. cbn.
  destruct w, r; reflexivity.
Qed.

Lemma Mutex_Add_eq (delta : float64) (a : atomicFloatMutex) :
  Mutex.Add delta a =
    if free (l a) then Returns (fadd (f64 a) delta) (MkMutex (fadd (f64 a) delta) (l a))
    else Waits.
Proof.
  destruct a as [x [w r]]. unfold Mutex.Add, at_l, set_f64, get_f64, free. exec_unfold. cbn.
  destruct w, r; reflexivity.
Qed.

End MutexCalls.

(** ** Loops of calls *)
Section Loops.

Lemma N_iter_mul {A} (f : A -> A) (a b : N) (x : A) :
  N.iter (a * b) f x = N.iter a (N.iter b f) x.
Proof.
  revert x. induction a as [ | a IHa ] using N.peano_ind; intros x.
  - reflexivity.
  - rewrite N.mul_succ_l, N.iter_add, IHa, N.iter_succ_r. reflexivity.
Qed.

Lemma N_iter_id {A} (n : N) (x : A) : N.iter n (fun y => y) x = x.
Proof.
  induction n as [ | n IHn ] using N.peano_ind.
  - reflexivity.
  - rewrite N.iter_succ. exact IHn.
Qed.

(** A loop whose body always returns, moving the state by [f], returns and
    moves the state by [f] iterated. *)
Lemma times_steps {S A} (Inv : S -> Prop) (f : S -> S) (body : exec S A) :
  (forall s, Inv s -> Inv (f s) /\ exists v, body s = Returns v (f s)) ->
  forall (n : Z) (s : S), Inv s ->
    Inv (N.iter (Z.to_N n) f s) /\
    exists u, times n body s = Returns u (N.iter (Z.to_N n) f s).
Proof.
  intros Hbody n. unfold times. generalize (Z.to_N n) as k. clear n.
  induction k as [ | k IHk ] using N.peano_ind; intros s Hs.
  - split; [ exact Hs | exists tt; reflexivity ].
  - destruct (Hbody s Hs) as (Hfs & v & Hv).
    destruct (IHk (f s) Hfs) as (Hinv & u & Hu).
    rewrite (N.iter_succ_r k _ f), (N.iter_succ k _ (fun rest => body ;; rest)).
    split; [ exact Hinv | ].
    exists u. unfold bind at 1. rewrite Hv. exact Hu.
Qed.

End Loops.

(** ** Counting with [Add(1)] *)
Section Counting.
Context {rule : NaNRule}.

Lemma count_up (n : N) :
  N.iter n (fun x => fadd x one) (float64_of_int 0)
  = float64_of_int (Z.min (Z.of_N n) (2 ^ 53)).
Proof.
  induction n as [ | n IHn ] using N.peano_ind.
  - reflexivity.
  - rewrite N.iter_succ, IHn, N2Z.inj_succ.
    destruct (Z.ltb_spec (Z.of_N n) (2 ^ 53)) as [Hlt | Hge].
    + rewrite (Z.min_l (Z.of_N n)) by lia.
      rewrite (Z.min_l (Z.succ (Z.of_N n))) by lia.
      unfold one. rewrite fadd_int_succ by lia. f_equal.
    + rewrite !Z.min_r by lia. apply fadd_int_stuck.
Qed.

(** An integer up to [2^53] compares equal to itself. *)
Lemma float64_ne_int (n : Z) :
  0 <= n <= 2 ^ 53 -> float64_ne (float64_of_int n) (float64_of_int n) = false.
Proof.
  intros Hn.
  destruct (Z.eq_dec n 0) as [-> | Hn0]; [ vm_compute; reflexivity | ].
  destruct (Z.eq_dec n (2 ^ 53)) as [-> | Hn1]; [ vm_compute; reflexivity | ].
  destruct n as [ | p | p ]; try lia.
  destruct (padding_exists p ltac:(lia)) as (mp & ip & Hip & Hmp & Hdp & _).
  unfold float64_ne, float64_of_int.
  rewrite (binary_normalize_int p mp ip) by assumption.
  rewrite to_spec_of_spec_normal by (assumption || lia).
  unfold SFeqb, SFcompare. rewrite Z.compare_refl, Pos.compare_cont_refl. reflexivity.
Qed.

Lemma int_mul_small (x y : Z) : 0 <= x * y <= 2 ^ 53 + 2 -> int_mul x y = x * y.
Proof.
  intros H. unfold int_mul.
  rewrite Z.mod_small by lia. lia.
Qed.

(** What [runQ] does on a container whose [Add(1)] and [Load] always return. *)
Lemma runQ_steps {T} {af : af64 T} (Inv : T -> Prop) (step : T -> T) (val : T -> float64) :
  (forall s, Inv s -> Inv (step s) /\ exists v, Add (float64_of_int 1) s = Returns v (step s)) ->
  (forall s, Inv s -> Load s = Returns (val s) s) ->
  forall (adderCount loaderCount operationCount : Z) (s : T),
    Inv s -> 0 <= adderCount -> 0 <= loaderCount -> 0 <= operationCount ->
    let s' := N.iter (Z.to_N (adderCount * operationCount)) step s in
    Inv s' /\
    runQ adderCount loaderCount operationCount s =
      Returns (float64_ne (val s')
                 (fmul (float64_of_int 1)
                       (float64_of_int (int_mul adderCount operationCount)))) s'.
Proof.
  intros HAdd HLoad A L C s Hs HA HL HC s'.
  assert (Hinner : forall t, Inv t -> Inv (N.iter (Z.to_N C) step t) /\
            exists u, times C (Add (float64_of_int 1)) t = Returns u (N.iter (Z.to_N C) step t))
    by (intros t Ht; exact (times_steps Inv step _ HAdd C t Ht)).
  destruct (times_steps Inv _ _ Hinner A s Hs) as (Hs1 & u1 & Hadders).
  rewrite <- N_iter_mul, <- Z2N.inj_mul in Hs1, Hadders by assumption.
  fold s' in Hs1, Hadders.
  assert (HLoad' : forall t, Inv t -> Inv t /\ exists v, Load t = Returns v t)
    by (intros t Ht; split; [ exact Ht | exists (val t); exact (HLoad t Ht) ]).
  assert (Hloads : forall t, Inv t -> Inv (N.iter (Z.to_N C) (fun y => y) t) /\
            exists u, times C Load t = Returns u (N.iter (Z.to_N C) (fun y => y) t))
    by (intros t Ht; exact (times_steps Inv (fun y => y) _ HLoad' C t Ht)).
  assert (Hloads' : forall t, Inv t -> Inv t /\ exists u, times C Load t = Returns u t).
  { intros t Ht. destruct (Hloads t Ht) as (_ & u & Hu).
    rewrite N_iter_id in Hu. split; [ exact Ht | exists u; exact Hu ]. }
  destruct (times_steps Inv (fun y => y) _ Hloads' L s' Hs1) as (_ & u2 & Hloaders).
  rewrite N_iter_id in Hloaders.
  split; [ exact Hs1 | ].
  unfold runQ, WaitGroup_Add. unfold bind at 1.
  replace (A <? 0) with false by (symmetry; apply Z.ltb_ge; lia).
  unfold bind at 1.
  replace (L <? 0) with false by (symmetry; apply Z.ltb_ge; lia).
  unfold bind at 1. rewrite Hadders.
  unfold bind at 1. rewrite Hloaders.
  unfold bind at 1. rewrite (HLoad s' Hs1). reflexivity.
Qed.

End Counting.

(** ** [runQ] on the two variants *)
Section Harness.
Context {rule : NaNRule}.

Lemma CAS2_steps (n : N) (x : float64) :
  N.iter n CAS2_step (CAS2.MkCAS2 (Float64bits x))
  = CAS2.MkCAS2 (Float64bits (N.iter n (fun y => fadd y one) x)).
Proof.
  induction n as [ | n IHn ] using N.peano_ind.
  - reflexivity.
  - rewrite !N.iter_succ, IHn. unfold CAS2_step. cbn [CAS2.u64].
    rewrite Float64frombits_Float64bits. reflexivity.
Qed.

Lemma Mutex_steps (n : N) (x : float64) (k : sync.RWMutex) :
  N.iter n Mutex_step (Mutex.MkMutex x k)
  = Mutex.MkMutex (N.iter n (fun y => fadd y one) x) k.
Proof.
  induction n as [ | n IHn ] using N.peano_ind.
  - reflexivity.
  - rewrite !N.iter_succ, IHn. reflexivity.
Qed.

Lemma adds_CAS2 (fuel : nat) (n : Z) :
  0 <= n ->
  adds_then_Load (af := CAS2_af64 fuel) n (CAS2.NewAtomicFloatCAS2 (float64_of_int 0))
  = Returns (total n) (CAS2.MkCAS2 (Float64bits (total n))).
Proof.
  intros Hn.
  destruct (times_steps (fun _ => True) CAS2_step (Add (af64 := CAS2_af64 fuel) (float64_of_int 1)))
    with (n := n) (s := CAS2.NewAtomicFloatCAS2 (float64_of_int 0)) as (_ & u & Hrun).
  - intros s _. split; [ exact I | ]. eexists. apply CAS2_Add_alone.
  - exact I.
  - unfold adds_then_Load, bind. rewrite Hrun. cbn [Load CAS2_af64].
    rewrite CAS2_Load_eq. unfold CAS2.NewAtomicFloatCAS2.
    rewrite CAS2_steps, count_up, Z2N.id by lia. cbn [CAS2.u64].
    rewrite Float64frombits_Float64bits. reflexivity.
Qed.

Lemma adds_Mutex (n : Z) :
  0 <= n ->
  adds_then_Load (af := Mutex_af64) n (Mutex.NewAtomicFloatMutex (float64_of_int 0))
  = Returns (total n) (Mutex.MkMutex (total n) sync.unlocked).
Proof.
  intros Hn.
  destruct (times_steps (fun m => Mutex.l m = sync.unlocked) Mutex_step
              (Add (af64 := Mutex_af64) (float64_of_int 1)))
    with (n := n) (s := Mutex.NewAtomicFloatMutex (float64_of_int 0)) as (_ & u & Hrun).
  - intros s Hs. split; [ exact Hs | ]. eexists. cbn [Add Mutex_af64].
    rewrite Mutex_Add_eq, Hs. cbn [free sync.writer sync.readers negb andb Nat.eqb].
    unfold Mutex_step. rewrite Hs. reflexivity.
  - reflexivity.
  - unfold adds_then_Load, bind. rewrite Hrun. cbn [Load Mutex_af64].
    rewrite Mutex_Load_eq. unfold Mutex.NewAtomicFloatMutex.
    rewrite Mutex_steps, count_up, Z2N.id by lia. reflexivity.
Qed.

Lemma runQ_CAS2 (fuel : nat) (adderCount loaderCount operationCount : Z) :
  0 <= adderCount -> 0 <= loaderCount -> 0 <= operationCount ->
  runQ (af := CAS2_af64 fuel) adderCount loaderCount operationCount
       (CAS2.NewAtomicFloatCAS2 (float64_of_int 0))
  = Returns (float64_ne (total (adderCount * operationCount))
               (fmul (float64_of_int 1)
                     (float64_of_int (int_mul adderCount operationCount))))
            (CAS2.MkCAS2 (Float64bits (total (adderCount * operationCount)))).
Proof.
  intros HA HL HC.
  destruct (runQ_steps (af := CAS2_af64 fuel) (fun _ => True) CAS2_step
              (fun a => Float64frombits (CAS2.u64 a))) with
    (adderCount := adderCount) (loaderCount := loaderCount)
    (operationCount := operationCount)
    (s := CAS2.NewAtomicFloatCAS2 (float64_of_int 0)) as (_ & Hrun); try assumption.
  - intros s _. split; [ exact I | ]. eexists. apply CAS2_Add_alone.
  - intros s _. apply CAS2_Load_eq.
  - exact I.
  - rewrite Hrun. unfold CAS2.NewAtomicFloatCAS2.
    rewrite CAS2_steps, count_up, Z2N.id by nia. cbn [CAS2.u64].
    rewrite Float64frombits_Float64bits. reflexivity.
Qed.

Lemma runQ_Mutex (adderCount loaderCount operationCount : Z) :
  0 <= adderCount -> 0 <= loaderCount -> 0 <= operationCount ->
  runQ (af := Mutex_af64) adderCount loaderCount operationCount
       (Mutex.NewAtomicFloatMutex (float64_of_int 0))
  = Returns (float64_ne (total (adderCount * operationCount))
               (fmul (float64_of_int 1)
                     (float64_of_int (int_mul adderCount operationCount))))
            (Mutex.MkMutex (total (adderCount * operationCount)) sync.unlocked).
Proof.
  intros HA HL HC.
  destruct (runQ_steps (af := Mutex_af64) (fun m => Mutex.l m = sync.unlocked) Mutex_step
              Mutex.f64) with
    (adderCount := adderCount) (loaderCount := loaderCount)
    (operationCount := operationCount)
    (s := Mutex.NewAtomicFloatMutex (float64_of_int 0)) as (_ & Hrun); try assumption.
  - intros s Hs. split; [ exact Hs | ]. eexists. cbn [Add Mutex_af64].
    rewrite Mutex_Add_eq, Hs. cbn [free sync.writer sync.readers negb andb Nat.eqb].
    unfold Mutex_step. rewrite Hs. reflexivity.
  - intros s Hs. cbn [Load Mutex_af64]. rewrite Mutex_Load_eq, Hs. reflexivity.
  - reflexivity.
  - rewrite Hrun. unfold Mutex.NewAtomicFloatMutex.
    rewrite Mutex_steps, count_up, Z2N.id by nia. reflexivity.
Qed.

End Harness.

(** ** NaN operands *)
Section NaN.
Context {rule : NaNRule}.

Lemma isNaN_to_spec (x : float64) : isNaN x = true -> to_spec x = S754_nan.
Proof.
  unfold isNaN, to_spec. intros H. apply andb_true_iff in H as [He Hm].
  rewrite He. apply negb_true_iff in Hm. rewrite Hm. reflexivity.
Qed.

Lemma isNaN_quiet_nan (sp : bool * Z) : isNaN (quiet_nan sp) = true.
Proof.
  unfold isNaN, quiet_nan, float64_of_fields, exp_mask, frac_mask; cbn [expo frac].
  apply andb_true_iff. split; [ reflexivity | ].
  apply negb_true_iff, Z.eqb_neq. intros H0.
  assert (Hbit : Z.testbit (Z.land (Z.lor (2 ^ 51) (snd sp)) (Z.ones 52)) 51 = true).
  { rewrite Z.land_spec, Z.lor_spec, Z.pow2_bits_true, Z.ones_spec_low by lia. reflexivity. }
  rewrite H0, Z.bits_0 in Hbit. discriminate.
Qed.

(** A NaN operand makes the sum a NaN. *)
Lemma fadd_NaN (x y : float64) :
  isNaN x || isNaN y = true -> isNaN (fadd x y) = true.
Proof.
  intros H. unfold fadd.
  assert (Hsum : SFadd prec emax (to_spec x) (to_spec y) = S754_nan).
  { apply orb_true_iff in H as [Hx | Hy].
    - rewrite (isNaN_to_spec x Hx). reflexivity.
    - rewrite (isNaN_to_spec y Hy). destruct (to_spec x); reflexivity. }
  rewrite Hsum. apply isNaN_quiet_nan.
Qed.

End NaN.

(** ** The two variants side by side *)
Section Simulation.
Context {rule : NaNRule}.



End Simulation.

(** The same with a rule for each variant: the additions of the two sources
    are different instructions. *)
Section SimulationTwoRules.
Variables bitwise_rule locking_rule : NaNRule.




End SimulationTwoRules.

(** ** Chains of [Swap] *)
Section Swaps.
Context {rule : NaNRule}.

Lemma CAS2_swaps (vs : list float64) :
  forall a : CAS2.atomicFloatCAS2,
  exists rets a',
    run CAS2.Swap vs a = Returns rets a' /\
    rets ++ [Float64frombits (CAS2.u64 a')] = Float64frombits (CAS2.u64 a) :: vs.
Proof.
  induction vs as [ | v vs IH ]; intros a.
  - exists [], a. split; reflexivity.
  - destruct (IH (CAS2.MkCAS2 (Float64bits v))) as (rets & a' & Hrun & Hlist).
    exists (Float64frombits (CAS2.u64 a) :: rets), a'. cbn [run]. unfold bind.
    rewrite CAS2_Swap_eq, Hrun. split; [ reflexivity | ].
    cbn [app]. rewrite Hlist. cbn [CAS2.u64]. rewrite Float64frombits_Float64bits. reflexivity.
Qed.

Lemma Mutex_swaps (vs : list float64) :
  forall x : float64,
  exists rets last,
    run Mutex.Swap vs (Mutex.MkMutex x sync.unlocked)
      = Returns rets (Mutex.MkMutex last sync.unlocked) /\
    rets ++ [last] = x :: vs.
Proof.
  induction vs as [ | v vs IH ]; intros x.
  - exists [], x. split; reflexivity.
  - destruct (IH v) as (rets & last & Hrun & Hlist).
    exists (x :: rets), last. cbn [run]. unfold bind.
    rewrite Mutex_Swap_eq. cbn [Mutex.l Mutex.f64 free sync.unlocked sync.writer sync.readers negb andb Nat.eqb].
    rewrite Hrun. split; [ reflexivity | ].
    cbn [app]. rewrite Hlist. reflexivity.
Qed.

End Swaps.

(** ** The two compare-and-swap variants *)

Section Variants.
Context {rule : NaNRule}.

Lemma CAS_Add_CAS2_Add (fuel : nat) :
  forall (sch : schedule) (delta : float64) (w : uint64),
  on_word CAS.u64 (CAS.Add fuel sch delta (CAS.MkCAS w))
  = on_word CAS2.u64 (CAS2.Add fuel sch delta (CAS2.MkCAS2 w)).
Proof.
  induction fuel as [ | fuel IH ]; intros sch delta w.
  - reflexivity.
  - rewrite CAS_Add_attempt, CAS2_Add_attempt. cbn zeta. cbn [CAS.u64 CAS2.u64].
    destruct (word_at_swap sch w =? w); [ reflexivity | apply IH ].
Qed.

Lemma run_same {S A B} (step : A -> exec S B) (v : B) (s : S) (cs : list A) :
  (forall c, step c s = Returns v s) ->
  run step cs s = Returns (map (fun _ => v) cs) s.
Proof.
  intros Hstep. induction cs as [ | c cs IH ].
  - reflexivity.
  - cbn [run map]. unfold bind. rewrite Hstep, IH. reflexivity.
Qed.

Lemma map_repeat_const {A B} (v : B) (x : A) (n : nat) :
  map (fun _ => v) (repeat x n) = repeat v n.
Proof. induction n as [ | n IH ]; [ reflexivity | cbn; now rewrite IH ]. Qed.

End Variants.

(** * The claims *)
Section Claims.
Context {rule : NaNRule}.
Import CAS2 Mutex.

(** C1.  [Add] of the bitwise variant is the compare-and-swap loop.  One
    attempt reads the word [old], computes the sum of its value and [delta]
    and the bits [new] of that sum, and installs [new] if the word is still
    [old]; otherwise it starts again from a fresh load.  A caller alone
    succeeds at the first attempt.  Whatever finitely many writes other
    goroutines make in between, the call returns: for the word [old'] its
    successful attempt read, the container then holds
    [Float64bits (Float64frombits old' + delta)] and the result is that sum,
    which is [Float64frombits] of the stored word; [old'] is the word at the
    entry of the call or one left by another goroutine. *)
Theorem CAS2_Add_postcondition (sch : schedule) (spare : nat) (delta : float64)
    (a : atomicFloatCAS2) :
  (forall fuel,
     CAS2.Add (S fuel) sch delta a =
       let newValue := fadd (Float64frombits (CAS2.u64 a)) delta in
       let newBits := Float64bits newValue in
       if word_at_swap sch (CAS2.u64 a) =? CAS2.u64 a
       then Returns newValue (MkCAS2 newBits)
       else CAS2.Add fuel (tl sch) delta (MkCAS2 (word_at_swap sch (CAS2.u64 a)))) /\
  CAS2.Add (S spare) [] delta a =
    Returns (fadd (Float64frombits (CAS2.u64 a)) delta)
            (MkCAS2 (Float64bits (fadd (Float64frombits (CAS2.u64 a)) delta))) /\
  exists (old' : uint64) (sum : float64) (a' : atomicFloatCAS2),
    old' = preimage sch (CAS2.u64 a) /\
    In old' (CAS2.u64 a :: writes sch) /\
    CAS2.Add (S (length sch + spare)) sch delta a = Returns sum a' /\
    sum = fadd (Float64frombits old') delta /\
    CAS2.u64 a' = Float64bits (fadd (Float64frombits old') delta) /\
    sum = Float64frombits (CAS2.u64 a').
Proof.
  split; [ intros fuel; apply CAS2_Add_attempt | ].
  split; [ apply CAS2_Add_alone | ].
  exists (preimage sch (CAS2.u64 a)),
    (fadd (Float64frombits (preimage sch (CAS2.u64 a))) delta),
    (MkCAS2 (Float64bits (fadd (Float64frombits (preimage sch (CAS2.u64 a))) delta))).
  split; [ reflexivity | ].
  split; [ apply preimage_in | ].
  split; [ apply CAS2_Add_returns | ].
  repeat split. cbn [CAS2.u64].
  symmetry. apply Float64frombits_Float64bits.
Qed.


(** C3, as amended.  From the initial value 0, [A*C] calls of [Add(1)]
    leave a container whose [Load] is the double [A*C] exactly, provided
    [A*C] is at most [2^53]; so the check of [runQ] with [A] adders of [C]
    calls each (and any loaders) passes.  This holds for the bitwise and for
    the locking variant. *)
Theorem accumulation_exact (A L C : Z) (fuel : nat) :
  0 <= A -> 0 <= L -> 0 <= C -> A * C <= 2 ^ 53 ->
  adds_then_Load (af := CAS2_af64 fuel) (A * C) (NewAtomicFloatCAS2 (float64_of_int 0))
    = Returns (float64_of_int (A * C)) (MkCAS2 (Float64bits (float64_of_int (A * C)))) /\
  adds_then_Load (af := Mutex_af64) (A * C) (NewAtomicFloatMutex (float64_of_int 0))
    = Returns (float64_of_int (A * C)) (MkMutex (float64_of_int (A * C)) sync.unlocked) /\
  runQ (af := CAS2_af64 fuel) A L C (NewAtomicFloatCAS2 (float64_of_int 0))
    = Returns false (MkCAS2 (Float64bits (float64_of_int (A * C)))) /\
  runQ (af := Mutex_af64) A L C (NewAtomicFloatMutex (float64_of_int 0))
    = Returns false (MkMutex (float64_of_int (A * C)) sync.unlocked).
Proof.
  intros HA HL HC Hmax.
  assert (Htotal : total (A * C) = float64_of_int (A * C))
    by (unfold total; rewrite Z.min_l by lia; reflexivity).
  rewrite adds_CAS2, adds_Mutex, runQ_CAS2, runQ_Mutex, Htotal by (assumption || nia).
  rewrite int_mul_small, fmul_one_int, float64_ne_int by nia.
  repeat split; reflexivity.
Qed.

(** C4.  [Swap v] returns the value a [Load] just before it returns, and
    leaves [v]: in the bitwise variant the word becomes [Float64bits v]. *)
Theorem Swap_returns_previous (v : float64) (a : atomicFloatCAS2) (x : float64) :
  (exists before : float64,
     CAS2.Load a = Returns before a /\
     CAS2.Swap v a = Returns before (MkCAS2 (Float64bits v)) /\
     CAS2.Load (MkCAS2 (Float64bits v)) = Returns v (MkCAS2 (Float64bits v))) /\
  (Mutex.Load (MkMutex x sync.unlocked) = Returns x (MkMutex x sync.unlocked) /\
   Mutex.Swap v (MkMutex x sync.unlocked) = Returns x (MkMutex v sync.unlocked) /\
   Mutex.Load (MkMutex v sync.unlocked) = Returns v (MkMutex v sync.unlocked)).
Proof.
  split.
  - exists (Float64frombits (CAS2.u64 a)).
    rewrite !CAS2_Load_eq, CAS2_Swap_eq. cbn [CAS2.u64].
    rewrite Float64frombits_Float64bits. repeat split; reflexivity.
  - rewrite !Mutex_Load_eq, Mutex_Swap_eq. repeat split; reflexivity.
Qed.

(** C5.  After the calls [Swap v1], ..., [Swap vN] on a container created
    with [v0], the values the calls returned together with the value of a
    final [Load] are the values [v0], [v1], ..., [vN], each as often. *)
Theorem Swap_conserves_values (v0 : float64) (vs : list float64) :
  (exists (rets : list float64) (final : float64) (a : atomicFloatCAS2),
     run CAS2.Swap vs (NewAtomicFloatCAS2 v0) = Returns rets a /\
     CAS2.Load a = Returns final a /\
     Permutation (rets ++ [final]) (v0 :: vs)) /\
  (exists (rets : list float64) (final : float64) (m : atomicFloatMutex),
     run Mutex.Swap vs (NewAtomicFloatMutex v0) = Returns rets m /\
     Mutex.Load m = Returns final m /\
     Permutation (rets ++ [final]) (v0 :: vs)).
Proof.
  split.
  - destruct (CAS2_swaps vs (NewAtomicFloatCAS2 v0)) as (rets & a & Hrun & Hlist).
    exists rets, (Float64frombits (CAS2.u64 a)), a.
    rewrite CAS2_Load_eq, Hlist. unfold NewAtomicFloatCAS2. cbn [CAS2.u64].
    rewrite Float64frombits_Float64bits. repeat split; [ assumption | apply Permutation_refl ].
  - destruct (Mutex_swaps vs v0) as (rets & last & Hrun & Hlist).
    exists rets, last, (MkMutex last sync.unlocked).
    rewrite Mutex_Load_eq, Hlist. repeat split; [ assumption | apply Permutation_refl ].
Qed.

(** C6.  [Float64bits] and [Float64frombits] are inverse to each other on
    all doubles (NaN payloads and the sign of zero included) and all 64-bit
    words; so a [Load] right after [Store x], or on a new container created
    with [x], returns [x] itself. *)
Theorem reinterpretation_lossless :
  (forall x : float64, Float64frombits (Float64bits x) = x) /\
  (forall x : float64, uint64_ok (Float64bits x)) /\
  (forall b : uint64, uint64_ok b -> Float64bits (Float64frombits b) = b) /\
  (forall (x : float64) (a : atomicFloatCAS2),
     exists a', CAS2.Store x a = Returns tt a' /\ CAS2.Load a' = Returns x a') /\
  (forall x : float64,
     CAS2.Load (NewAtomicFloatCAS2 x) = Returns x (NewAtomicFloatCAS2 x)).
Proof.
  split; [ exact Float64frombits_Float64bits | ].
  split; [ exact Float64bits_range | ].
  split; [ exact Float64bits_Float64frombits | ].
  split.
  - intros x a. exists (MkCAS2 (Float64bits x)).
    rewrite CAS2_Store_eq, CAS2_Load_eq. cbn [CAS2.u64].
    rewrite Float64frombits_Float64bits. split; reflexivity.
  - intros x. rewrite CAS2_Load_eq. unfold NewAtomicFloatCAS2. cbn [CAS2.u64].
    rewrite Float64frombits_Float64bits. reflexivity.
Qed.


(** C8.  [Load] returns the value held and leaves the container as it was:
    the word of the bitwise variant, the [float64] field (and the lock) of
    the locking variant, where the call returns unless a writer holds the
    lock (other readers do not make it wait).  Any number of [Load]s in a
    row return the same value. *)
Theorem Load_is_pure (a : atomicFloatCAS2) (m : atomicFloatMutex)
    (x : float64) (readers : nat) (n : nat) :
  CAS2.Load a = Returns (Float64frombits (CAS2.u64 a)) a /\
  run (fun _ : unit => CAS2.Load) (repeat tt n) a
    = Returns (repeat (Float64frombits (CAS2.u64 a)) n) a /\
  Mutex.Load m = (if sync.writer (Mutex.l m) then Waits else Returns (Mutex.f64 m) m) /\
  Mutex.Load (MkMutex x (sync.MkRWMutex false readers))
    = Returns x (MkMutex x (sync.MkRWMutex false readers)) /\
  run (fun _ : unit => Mutex.Load) (repeat tt n) (MkMutex x (sync.MkRWMutex false readers))
    = Returns (repeat x n) (MkMutex x (sync.MkRWMutex false readers)).
Proof.
  split; [ apply CAS2_Load_eq | ].
  split; [ | split; [ apply Mutex_Load_eq | ] ].
  - rewrite (run_same _ (Float64frombits (CAS2.u64 a))) by (intros _; apply CAS2_Load_eq).
    now rewrite map_repeat_const.
  - assert (H : Mutex.Load (MkMutex x (sync.MkRWMutex false readers))
                = Returns x (MkMutex x (sync.MkRWMutex false readers)))
      by (rewrite Mutex_Load_eq; reflexivity).
    split; [ exact H | ].
    rewrite (run_same _ x) by (intros _; exact H).
    now rewrite map_repeat_const.
Qed.

(** C10.  The two compare-and-swap variants do the same: created with the
    same value they hold the same word, and on the same word every call of
    the one returns what the call of the other returns and leaves the same
    word, [Add] under every schedule and with every number of attempts. *)
Theorem CAS_and_CAS2_agree (w : uint64) (x : float64) (fuel : nat) (sch : schedule) :
  CAS.u64 (CAS.NewAtomicFloatCAS x) = CAS2.u64 (NewAtomicFloatCAS2 x) /\
  on_word CAS.u64 (CAS.Add fuel sch x (CAS.MkCAS w))
    = on_word CAS2.u64 (CAS2.Add fuel sch x (MkCAS2 w)) /\
  on_word CAS.u64 (CAS.Load (CAS.MkCAS w)) = on_word CAS2.u64 (CAS2.Load (MkCAS2 w)) /\
  on_word CAS.u64 (CAS.Store x (CAS.MkCAS w)) = on_word CAS2.u64 (CAS2.Store x (MkCAS2 w)) /\
  on_word CAS.u64 (CAS.Swap x (CAS.MkCAS w)) = on_word CAS2.u64 (CAS2.Swap x (MkCAS2 w)).
Proof.
  split; [ reflexivity | ].
  split; [ apply CAS_Add_CAS2_Add | ].
  repeat split; reflexivity.
Qed.

End Claims.

(** * Concrete runs *)
Section Runs.
Import CAS2 Mutex.

(** The scenario of the specification: 4 adders, 500 calls each, no loader. *)
Lemma accumulation_exact_scenario :
  0 <= 4 /\ 0 <= 0 /\ 0 <= 500 /\ 4 * 500 <= 2 ^ 53 /\
  adds_then_Load (af := CAS2_af64 0) (4 * 500) (NewAtomicFloatCAS2 (float64_of_int 0))
    = Returns (float64_of_int (4 * 500)) (MkCAS2 (Float64bits (float64_of_int (4 * 500)))) /\
  adds_then_Load (af := Mutex_af64) (4 * 500) (NewAtomicFloatMutex (float64_of_int 0))
    = Returns (float64_of_int (4 * 500)) (MkMutex (float64_of_int (4 * 500)) sync.unlocked) /\
  runQ (af := CAS2_af64 0) 4 0 500 (NewAtomicFloatCAS2 (float64_of_int 0))
    = Returns false (MkCAS2 (Float64bits (float64_of_int (4 * 500)))) /\
  runQ (af := Mutex_af64) 4 0 500 (NewAtomicFloatMutex (float64_of_int 0))
    = Returns false (MkMutex (float64_of_int (4 * 500)) sync.unlocked).
Proof.
  split; [ lia | ]. split; [ lia | ]. split; [ lia | ]. split; [ lia | ].
  apply (accumulation_exact (rule := amd64_rule) 4 0 500 0); lia.
Defined.

Example scenario_total_is_2000 : Float64bits (float64_of_int (4 * 500)) = 0x409F400000000000.
Proof. vm_compute. reflexivity. Qed.

(** Two adders of [2^52 + 1] calls each: the product [2^53 + 2] is a double,
    yet after that many calls of [Add(1)] the container holds [2^53], another
    double, and [runQ] reports the mismatch. *)
Lemma accumulation_stalls :
  int_of_float64 (float64_of_int (2 * (2 ^ 52 + 1))) = Some (2 * (2 ^ 52 + 1)) /\
  Float64bits (float64_of_int (2 * (2 ^ 52 + 1))) = 0x4340000000000001 /\
  Float64bits (float64_of_int (2 ^ 53)) = 0x4340000000000000 /\
  adds_then_Load (af := CAS2_af64 0) (2 * (2 ^ 52 + 1)) (NewAtomicFloatCAS2 (float64_of_int 0))
    = Returns (float64_of_int (2 ^ 53)) (MkCAS2 (Float64bits (float64_of_int (2 ^ 53)))) /\
  adds_then_Load (af := Mutex_af64) (2 * (2 ^ 52 + 1)) (NewAtomicFloatMutex (float64_of_int 0))
    = Returns (float64_of_int (2 ^ 53)) (MkMutex (float64_of_int (2 ^ 53)) sync.unlocked) /\
  runQ (af := CAS2_af64 0) 2 0 (2 ^ 52 + 1) (NewAtomicFloatCAS2 (float64_of_int 0))
    = Returns true (MkCAS2 (Float64bits (float64_of_int (2 ^ 53)))) /\
  runQ (af := Mutex_af64) 2 0 (2 ^ 52 + 1) (NewAtomicFloatMutex (float64_of_int 0))
    = Returns true (MkMutex (float64_of_int (2 ^ 53)) sync.unlocked).
Proof.
  assert (Hne : float64_ne (total (2 * (2 ^ 52 + 1)))
                  (fmul (float64_of_int 1) (float64_of_int (int_mul 2 (2 ^ 52 + 1)))) = true)
    by (vm_compute; reflexivity).
  split; [ vm_compute; reflexivity | ].
  split; [ vm_compute; reflexivity | ].
  split; [ vm_compute; reflexivity | ].
  rewrite adds_CAS2, adds_Mutex, runQ_CAS2, runQ_Mutex, Hne by lia.
  repeat split; reflexivity.
Qed.


(** A word with a NaN payload, there and back. *)
Lemma reinterpretation_lossless_NaN :
  uint64_ok 0x7FF0000000000001 /\
  Float64bits (Float64frombits 0x7FF0000000000001) = 0x7FF0000000000001.
Proof.
  assert (H : uint64_ok 0x7FF0000000000001) by (unfold uint64_ok; lia).
  split; [ exact H | ].
  exact (proj1 (proj2 (proj2 reinterpretation_lossless)) _ H).
Defined.


Example sum_of_tenths :
  Float64bits (fadd (Float64frombits 0x3FB999999999999A) (Float64frombits 0x3FC999999999999A))
  = 0x3FD3333333333334.
Proof. vm_compute. reflexivity. Qed.

Example Add_retries_twice :
  CAS2.Add 3 [Some 5; Some 7] (float64_of_int 1) (NewAtomicFloatCAS2 (float64_of_int 0))
  = Returns (float64_of_int 1) (MkCAS2 0x3FF0000000000000).
Proof. vm_compute. reflexivity. Qed.

Example Add_waits_when_out_of_attempts :
  CAS2.Add 2 [Some 5; Some 7] (float64_of_int 1) (NewAtomicFloatCAS2 (float64_of_int 0)) = Waits.
Proof. vm_compute. reflexivity. Qed.

End Runs.

(** * Further properties *)

(** ** Sums of integers *)
Section IntegerSums.
Context {rule : NaNRule}.

Lemma to_spec_float64_of_int (p mp : positive) (ip : Z) :
  0 <= ip <= 52 -> Zpos mp = Zpos p * 2 ^ ip -> Zpos (digits2_pos mp) = 53 ->
  to_spec (float64_of_int (Zpos p)) = S754_finite false mp (- ip).
Proof.
  intros Hip Hmp Hdp. unfold float64_of_int.
  rewrite (binary_normalize_int p mp ip) by assumption.
  apply to_spec_of_spec_normal; (assumption || lia).
Qed.

(** The larger integer has the shorter padding. *)
Lemma padding_mono (p q mp mq : positive) (ip iq : Z) :
  Zpos p <= Zpos q ->
  0 <= ip -> Zpos mp = Zpos p * 2 ^ ip -> Zpos (digits2_pos mp) = 53 ->
  0 <= iq -> Zpos mq = Zpos q * 2 ^ iq -> Zpos (digits2_pos mq) = 53 ->
  iq <= ip.
Proof.
  intros Hpq Hip Hmp Hdp Hiq Hmq Hdq.
  pose proof (digits2_pos_bounds mp) as Bp. rewrite Hdp in Bp.
  pose proof (digits2_pos_bounds mq) as Bq. rewrite Hdq in Bq.
  change (2 ^ (53 - 1)) with (2 ^ 52) in Bp, Bq.
  destruct (Z.leb_spec iq ip) as [ | Hlt ]; [ assumption | exfalso ].
  assert (Hsplit : 2 ^ iq = 2 ^ ip * 2 ^ (iq - ip))
    by (rewrite <- Z.pow_add_r by lia; f_equal; lia).
  assert (HX : 0 < 2 ^ ip) by (apply Z.pow_pos_nonneg; lia).
  assert (HY : 2 <= 2 ^ (iq - ip)).
  { change 2 with (2 ^ 1) at 1. apply Z.pow_le_mono_r; lia. }
  rewrite Hsplit in Hmq.
  assert (Zpos p * 2 ^ ip <= Zpos q * 2 ^ ip) by nia.
  assert (2 * (Zpos q * 2 ^ ip) <= Zpos q * 2 ^ ip * 2 ^ (iq - ip)) by nia.
  nia.
Qed.

(** The sum of two positive integers that stays below [2^53], before it is
    stored back into the fields. *)
Lemma SFadd_ints (pa pb ma mb mq : positive) (ia ib iq : Z) :
  0 <= ia <= 52 -> Zpos ma = Zpos pa * 2 ^ ia -> Zpos (digits2_pos ma) = 53 ->
  0 <= ib <= 52 -> Zpos mb = Zpos pb * 2 ^ ib -> Zpos (digits2_pos mb) = 53 ->
  0 <= iq <= 52 -> Zpos mq = (Zpos pa + Zpos pb) * 2 ^ iq -> Zpos (digits2_pos mq) = 53 ->
  SFadd prec emax (S754_finite false ma (- ia)) (S754_finite false mb (- ib))
  = S754_finite false mq (- iq).
Proof.
  intros Hia Hma Hda Hib Hmb Hdb Hiq Hmq Hdq.
  assert (Hqa : iq <= ia)
    by (apply (padding_mono pa (pa + pb) ma mq ia iq); (assumption || lia)).
  assert (Hqb : iq <= ib)
    by (apply (padding_mono pb (pa + pb) mb mq ib iq); (assumption || lia)).
  unfold SFadd. cbn [cond_Zopp].
  set (k := Z.max ia ib).
  replace (Z.min (- ia) (- ib)) with (- k) by (unfold k; lia).
  pose proof (shl_align_fst ma (- ia) (- k) ltac:(unfold k; lia)) as HA.
  pose proof (shl_align_fst mb (- ib) (- k) ltac:(unfold k; lia)) as HB.
  set (A := fst (shl_align ma (- ia) (- k))) in *.
  set (B := fst (shl_align mb (- ib) (- k))) in *.
  change (Zpos A + Zpos B) with (Zpos (A + B)). unfold binary_normalize.
  transitivity (binary_round prec emax false (A + B) (- iq - (k - iq)));
    [ f_equal; lia | ].
  apply binary_round_shifted; try (unfold k; lia); try assumption.
  rewrite Pos2Z.inj_add, HA, HB, Hma, Hmb, Hmq.
  replace (- ia - - k) with (k - ia) by lia.
  replace (- ib - - k) with (k - ib) by lia.
  rewrite <- !Z.mul_assoc, <- !Z.pow_add_r by (unfold k; lia).
  replace (ia + (k - ia)) with k by lia.
  replace (ib + (k - ib)) with k by lia.
  replace (iq + (k - iq)) with k by lia.
  lia.
Qed.

Lemma float64_of_int_pos (p mp : positive) (ip : Z) (nan : float64) :
  0 <= ip <= 52 -> Zpos mp = Zpos p * 2 ^ ip -> Zpos (digits2_pos mp) = 53 ->
  float64_of_int (Zpos p) = of_spec nan (S754_finite false mp (- ip)).
Proof.
  intros Hip Hmp Hdp. unfold float64_of_int.
  rewrite (binary_normalize_int p mp ip) by assumption. reflexivity.
Qed.

(** Addition of integers is exact while the sum stays below [2^53]. *)
Lemma fadd_int_add (a b : Z) :
  0 <= a -> 0 <= b -> a + b < 2 ^ 53 ->
  fadd (float64_of_int a) (float64_of_int b) = float64_of_int (a + b).
Proof.
  intros Ha Hb Hsum.
  destruct a as [ | pa | pa ]; try lia.
  - destruct b as [ | pb | pb ]; try lia.
    + apply float64_ext; vm_compute; reflexivity.
    + destruct (padding_exists pb ltac:(lia)) as (mb & ib & Hib & Hmb & Hdb & _).
      unfold fadd. rewrite (to_spec_float64_of_int pb mb ib) by assumption.
      change (to_spec (float64_of_int 0)) with (S754_zero false).
      cbn [SFadd Z.add]. symmetry. now apply float64_of_int_pos.
  - destruct b as [ | pb | pb ]; try lia.
    + destruct (padding_exists pa ltac:(lia)) as (ma & ia & Hia & Hma & Hda & _).
      unfold fadd. rewrite (to_spec_float64_of_int pa ma ia) by assumption.
      change (to_spec (float64_of_int 0)) with (S754_zero false).
      cbn [SFadd]. rewrite Z.add_0_r. symmetry. now apply float64_of_int_pos.
    + destruct (padding_exists pa ltac:(lia)) as (ma & ia & Hia & Hma & Hda & _).
      destruct (padding_exists pb ltac:(lia)) as (mb & ib & Hib & Hmb & Hdb & _).
      destruct (padding_exists (pa + pb) ltac:(lia)) as (mq & iq & Hiq & Hmq & Hdq & _).
      rewrite Pos2Z.inj_add in Hmq.
      unfold fadd.
      rewrite (to_spec_float64_of_int pa ma ia), (to_spec_float64_of_int pb mb ib)
        by assumption.
      rewrite (SFadd_ints pa pb ma mb mq ia ib iq) by assumption.
      change (Zpos pa + Zpos pb) with (Zpos (pa + pb)).
      symmetry. apply float64_of_int_pos; assumption.
Qed.

End IntegerSums.

(** ** [Add] of integers *)
Section IntegerAdds.
Context {rule : NaNRule}.
Import CAS2 Mutex.

Lemma sumZ_nonneg (ds : list Z) : Forall (fun d => 0 <= d) ds -> 0 <= sumZ ds.
Proof.
  induction 1 as [ | d ds Hd _ IH ]; cbn [sumZ fold_right]; [ lia | ].
  fold (sumZ ds). lia.
Qed.

Lemma sumZ_Permutation (ds ds' : list Z) : Permutation ds ds' -> sumZ ds = sumZ ds'.
Proof.
  induction 1 as [ | d ds ds' _ IH | d d' ds | ds ds' ds'' _ IH1 _ IH2 ];
    cbn [sumZ fold_right]; fold sumZ.
  - reflexivity.
  - fold (sumZ ds) (sumZ ds'). lia.
  - lia.
  - congruence.
Qed.

Lemma ints_CAS2 (fuel : nat) (ds : list Z) :
  forall k : Z,
  0 <= k -> Forall (fun d => 0 <= d) ds -> k + sumZ ds < 2 ^ 53 ->
  run (fun d => CAS2.Add (S fuel) [] (float64_of_int d)) ds
      (MkCAS2 (Float64bits (float64_of_int k)))
  = Returns (map float64_of_int (totals k ds))
            (MkCAS2 (Float64bits (float64_of_int (k + sumZ ds)))).
Proof.
  induction ds as [ | d ds IH ]; intros k Hk Hds Hsum.
  - cbn [sumZ fold_right]. rewrite Z.add_0_r. reflexivity.
  - inversion Hds as [ | ? ? Hd Hds' ]; subst.
    pose proof (sumZ_nonneg ds Hds') as Hnn.
    cbn [sumZ fold_right] in Hsum. fold (sumZ ds) in Hsum.
    cbn [run totals map]. unfold bind at 1.
    rewrite CAS2_Add_alone. cbn [CAS2.u64].
    rewrite Float64frombits_Float64bits, fadd_int_add by lia.
    unfold bind. rewrite (IH (k + d)) by (assumption || lia).
    cbn [sumZ fold_right]. fold (sumZ ds).
    rewrite Z.add_assoc. reflexivity.
Qed.

Lemma ints_Mutex (ds : list Z) :
  forall k : Z,
  0 <= k -> Forall (fun d => 0 <= d) ds -> k + sumZ ds < 2 ^ 53 ->
  run (fun d => Mutex.Add (float64_of_int d)) ds (MkMutex (float64_of_int k) sync.unlocked)
  = Returns (map float64_of_int (totals k ds))
            (MkMutex (float64_of_int (k + sumZ ds)) sync.unlocked).
Proof.
  induction ds as [ | d ds IH ]; intros k Hk Hds Hsum.
  - cbn [sumZ fold_right]. rewrite Z.add_0_r. reflexivity.
  - inversion Hds as [ | ? ? Hd Hds' ]; subst.
    pose proof (sumZ_nonneg ds Hds') as Hnn.
    cbn [sumZ fold_right] in Hsum. fold (sumZ ds) in Hsum.
    cbn [run totals map]. unfold bind at 1.
    rewrite Mutex_Add_eq.
    cbn [Mutex.l Mutex.f64 free sync.unlocked sync.writer sync.readers negb andb Nat.eqb].
    rewrite fadd_int_add by lia.
    unfold bind. rewrite (IH (k + d)) by (assumption || lia).
    cbn [sumZ fold_right]. fold (sumZ ds).
    rewrite Z.add_assoc. reflexivity.
Qed.

(** X1.  On a container created with the integer [k >= 0], calls of [Add]
    with integers [d >= 0] return the running totals and leave the total
    [k + d1 + ... + dn], all exact, as long as the total stays below [2^53];
    in both variants. *)
Theorem integer_Adds_exact (fuel : nat) (k : Z) (ds : list Z) :
  0 <= k -> Forall (fun d => 0 <= d) ds -> k + sumZ ds < 2 ^ 53 ->
  (exists a : atomicFloatCAS2,
     run (fun d => CAS2.Add (S fuel) [] (float64_of_int d)) ds
         (NewAtomicFloatCAS2 (float64_of_int k))
       = Returns (map float64_of_int (totals k ds)) a /\
     CAS2.Load a = Returns (float64_of_int (k + sumZ ds)) a) /\
  (exists m : atomicFloatMutex,
     run (fun d => Mutex.Add (float64_of_int d)) ds
         (NewAtomicFloatMutex (float64_of_int k))
       = Returns (map float64_of_int (totals k ds)) m /\
     Mutex.Load m = Returns (float64_of_int (k + sumZ ds)) m).
Proof.
  intros Hk Hds Hsum. split.
  - exists (MkCAS2 (Float64bits (float64_of_int (k + sumZ ds)))).
    unfold NewAtomicFloatCAS2. rewrite ints_CAS2 by assumption.
    rewrite CAS2_Load_eq. cbn [CAS2.u64].
    rewrite Float64frombits_Float64bits. split; reflexivity.
  - exists (MkMutex (float64_of_int (k + sumZ ds)) sync.unlocked).
    unfold NewAtomicFloatMutex. rewrite ints_Mutex by assumption.
    rewrite Mutex_Load_eq. split; reflexivity.
Qed.

(** X2.  The order of such calls does not matter: two sequences of [Add]s
    with the same integers [d >= 0], in any order, leave the same container,
    as long as the total stays below [2^53]; in both variants. *)
Theorem integer_Adds_any_order (fuel : nat) (k : Z) (ds ds' : list Z) :
  Permutation ds ds' ->
  0 <= k -> Forall (fun d => 0 <= d) ds -> k + sumZ ds < 2 ^ 53 ->
  (exists (rs rs' : list float64) (a : atomicFloatCAS2),
     run (fun d => CAS2.Add (S fuel) [] (float64_of_int d)) ds
         (NewAtomicFloatCAS2 (float64_of_int k)) = Returns rs a /\
     run (fun d => CAS2.Add (S fuel) [] (float64_of_int d)) ds'
         (NewAtomicFloatCAS2 (float64_of_int k)) = Returns rs' a) /\
  (exists (rs rs' : list float64) (m : atomicFloatMutex),
     run (fun d => Mutex.Add (float64_of_int d)) ds
         (NewAtomicFloatMutex (float64_of_int k)) = Returns rs m /\
     run (fun d => Mutex.Add (float64_of_int d)) ds'
         (NewAtomicFloatMutex (float64_of_int k)) = Returns rs' m).
Proof.
  intros Hperm Hk Hds Hsum.
  assert (Hds' : Forall (fun d => 0 <= d) ds') by (eapply Permutation_Forall; eassumption).
  assert (Heq : sumZ ds' = sumZ ds) by (symmetry; now apply sumZ_Permutation).
  split.
  - exists (map float64_of_int (totals k ds)), (map float64_of_int (totals k ds')),
      (MkCAS2 (Float64bits (float64_of_int (k + sumZ ds)))).
    unfold NewAtomicFloatCAS2. rewrite !ints_CAS2 by (assumption || lia).
    rewrite Heq. split; reflexivity.
  - exists (map float64_of_int (totals k ds)), (map float64_of_int (totals k ds')),
      (MkMutex (float64_of_int (k + sumZ ds)) sync.unlocked).
    unfold NewAtomicFloatMutex. rewrite !ints_Mutex by (assumption || lia).
    rewrite Heq. split; reflexivity.
Qed.

(** X3.  Counting with [Add(1)] stops at [2^53]: after [n] calls on a
    container created with 0 the value is the smaller of [n] and [2^53], and
    on a container that holds [2^53] a further [Add(1)] returns [2^53] and
    changes nothing; in both variants. *)
Theorem Add_one_saturates (fuel : nat) (n : Z) :
  0 <= n ->
  adds_then_Load (af := CAS2_af64 fuel) n (NewAtomicFloatCAS2 (float64_of_int 0))
    = Returns (float64_of_int (Z.min n (2 ^ 53)))
              (MkCAS2 (Float64bits (float64_of_int (Z.min n (2 ^ 53))))) /\
  adds_then_Load (af := Mutex_af64) n (NewAtomicFloatMutex (float64_of_int 0))
    = Returns (float64_of_int (Z.min n (2 ^ 53)))
              (MkMutex (float64_of_int (Z.min n (2 ^ 53))) sync.unlocked) /\
  CAS2.Add (S fuel) [] (float64_of_int 1) (NewAtomicFloatCAS2 (float64_of_int (2 ^ 53)))
    = Returns (float64_of_int (2 ^ 53)) (NewAtomicFloatCAS2 (float64_of_int (2 ^ 53))) /\
  Mutex.Add (float64_of_int 1) (NewAtomicFloatMutex (float64_of_int (2 ^ 53)))
    = Returns (float64_of_int (2 ^ 53)) (NewAtomicFloatMutex (float64_of_int (2 ^ 53))).
Proof.
  intros Hn.
  split; [ exact (adds_CAS2 fuel n Hn) | ].
  split; [ exact (adds_Mutex n Hn) | ].
  split.
  - rewrite CAS2_Add_alone. unfold NewAtomicFloatCAS2. cbn [CAS2.u64].
    rewrite Float64frombits_Float64bits, fadd_int_stuck. reflexivity.
  - rewrite Mutex_Add_eq. unfold NewAtomicFloatMutex.
    cbn [Mutex.l Mutex.f64 free sync.unlocked sync.writer sync.readers negb andb Nat.eqb].
    rewrite fadd_int_stuck. reflexivity.
Qed.

End IntegerAdds.

(** ** The retry loop *)
Section Retries.
Context {rule : NaNRule}.

Lemma last_cons_default {A} (l : list A) :
  forall w d : A, last (w :: l) d = last l w.
Proof.
  induction l as [ | x l IH ]; intros w d.
  - reflexivity.
  - change (last (w :: x :: l) d) with (last (x :: l) d).
    rewrite !IH. reflexivity.
Qed.

Lemma preimage_all_changing (sch : schedule) :
  forall old : uint64,
  all_changing sch old = true -> preimage sch old = last (writes sch) old.
Proof.
  induction sch as [ | other sch IH ]; intros old Hch.
  - reflexivity.
  - destruct other as [w | ]; [ | discriminate Hch ].
    cbn [all_changing] in Hch. apply andb_true_iff in Hch as [Hw Hch].
    apply negb_true_iff in Hw.
    cbn [preimage]. unfold word_at_swap. cbn [next]. rewrite Hw.
    rewrite (IH w Hch). cbn [writes].
    symmetry. apply last_cons_default.
Qed.

Lemma CAS2_Add_starved (sch : schedule) :
  forall (fuel : nat) (delta : float64) (a : CAS2.atomicFloatCAS2),
  all_changing sch (CAS2.u64 a) = true -> (fuel <= length sch)%nat ->
  CAS2.Add fuel sch delta a = Waits.
Proof.
  induction sch as [ | other sch IH ]; intros fuel delta a Hch Hfuel.
  - destruct fuel; [ reflexivity | cbn [length] in Hfuel; lia ].
  - destruct fuel as [ | fuel ]; [ reflexivity | ].
    destruct other as [w | ]; [ | discriminate Hch ].
    cbn [all_changing] in Hch. apply andb_true_iff in Hch as [Hw Hch].
    apply negb_true_iff in Hw.
    rewrite CAS2_Add_attempt. cbn zeta. unfold word_at_swap. cbn [next tl]. rewrite Hw.
    apply IH; [ exact Hch | cbn [length] in Hfuel; lia ].
Qed.

Lemma CAS_Add_returns (sch : schedule) :
  forall (spare : nat) (delta : float64) (a : CAS.atomicFloatCAS),
    CAS.Add (S (length sch + spare)) sch delta a =
      Returns (fadd (Float64frombits (preimage sch (CAS.u64 a))) delta)
              (CAS.MkCAS (Float64bits (fadd (Float64frombits (preimage sch (CAS.u64 a))) delta))).
Proof.
  induction sch as [ | other sch IH ]; intros spare delta a.
  - rewrite CAS_Add_attempt. cbn zeta. unfold word_at_swap. cbn [next preimage].
    rewrite Z.eqb_refl. reflexivity.
  - rewrite CAS_Add_attempt. cbn zeta. cbn [preimage length Nat.add tl].
    destruct (word_at_swap (other :: sch) (CAS.u64 a) =? CAS.u64 a); [ reflexivity | ].
    rewrite IH. reflexivity.
Qed.

(** X4.  [Add] of the bitwise variants retries without a bound: as long as
    every attempt finds the word changed by another goroutine, the call has
    not returned, however many attempts it has made; the first attempt that
    is left alone succeeds, on the last word written. *)
Theorem Add_retries_while_interfered (sch : schedule) (fuel : nat) (delta : float64)
    (w : uint64) :
  all_changing sch w = true -> (fuel <= length sch)%nat ->
  CAS2.Add fuel sch delta (CAS2.MkCAS2 w) = Waits /\
  CAS.Add fuel sch delta (CAS.MkCAS w) = Waits /\
  CAS2.Add (S (length sch)) sch delta (CAS2.MkCAS2 w)
    = Returns (fadd (Float64frombits (last (writes sch) w)) delta)
              (CAS2.MkCAS2 (Float64bits (fadd (Float64frombits (last (writes sch) w)) delta))) /\
  CAS.Add (S (length sch)) sch delta (CAS.MkCAS w)
    = Returns (fadd (Float64frombits (last (writes sch) w)) delta)
              (CAS.MkCAS (Float64bits (fadd (Float64frombits (last (writes sch) w)) delta))).
Proof.
  intros Hch Hfuel.
  assert (H2 : CAS2.Add fuel sch delta (CAS2.MkCAS2 w) = Waits)
    by (apply CAS2_Add_starved; assumption).
  split; [ exact H2 | ]. split.
  - pose proof (CAS_Add_CAS2_Add fuel sch delta w) as Heq. rewrite H2 in Heq.
    destruct (CAS.Add fuel sch delta (CAS.MkCAS w)); (reflexivity || discriminate Heq).
  - split.
    + pose proof (CAS2_Add_returns sch 0 delta (CAS2.MkCAS2 w)) as Hret.
      rewrite Nat.add_0_r in Hret. rewrite Hret. cbn [CAS2.u64].
      rewrite (preimage_all_changing sch w Hch). reflexivity.
    + pose proof (CAS_Add_returns sch 0 delta (CAS.MkCAS w)) as Hret.
      rewrite Nat.add_0_r in Hret. rewrite Hret. cbn [CAS.u64].
      rewrite (preimage_all_changing sch w Hch). reflexivity.
Qed.

(** X5.  [Add] of the first compare-and-swap variant (the [for] loop) has the
    postcondition of the second: under every finite schedule it returns, the
    container then holds [Float64bits (Float64frombits old' + delta)] for the
    word [old'] read by the attempt that succeeds, a word that was in the
    container, and the result is [Float64frombits] of the stored word. *)
Theorem CAS_Add_postcondition (sch : schedule) (spare : nat) (delta : float64)
    (a : CAS.atomicFloatCAS) :
  exists (old' : uint64) (sum : float64) (a' : CAS.atomicFloatCAS),
    old' = preimage sch (CAS.u64 a) /\
    In old' (CAS.u64 a :: writes sch) /\
    CAS.Add (S (length sch + spare)) sch delta a = Returns sum a' /\
    sum = fadd (Float64frombits old') delta /\
    CAS.u64 a' = Float64bits (fadd (Float64frombits old') delta) /\
    sum = Float64frombits (CAS.u64 a').
Proof.
  exists (preimage sch (CAS.u64 a)),
    (fadd (Float64frombits (preimage sch (CAS.u64 a))) delta),
    (CAS.MkCAS (Float64bits (fadd (Float64frombits (preimage sch (CAS.u64 a))) delta))).
  split; [ reflexivity | ].
  split; [ apply preimage_in | ].
  split; [ apply CAS_Add_returns | ].
  repeat split. cbn [CAS.u64].
  symmetry. apply Float64frombits_Float64bits.
Qed.

End Retries.

(** ** The lock of the locking variant *)
Section Lock.
Context {rule : NaNRule}.
Import Mutex.


End Lock.

(** ** How the calls compose *)
Section Composition.
Context {rule : NaNRule}.

(** X7.  Run alone, [Swap] is a [Load] followed by a [Store], and [Add] is a
    [Load] followed by a [Store] of the sum; a [Store] is overwritten by the
    next one.  This holds in both variants, in the locking one for every
    state of the lock. *)
Theorem calls_compose (a : CAS2.atomicFloatCAS2) (m : Mutex.atomicFloatMutex)
    (x new delta : float64) (fuel : nat) :
  CAS2.Swap new a = (old <- CAS2.Load ;; CAS2.Store new ;; ret old) a /\
  CAS2.Add (S fuel) [] delta a
    = (cur <- CAS2.Load ;; CAS2.Store (fadd cur delta) ;; ret (fadd cur delta)) a /\
  (CAS2.Store x ;; CAS2.Store new) a = CAS2.Store new a /\
  Mutex.Swap new m = (old <- Mutex.Load ;; Mutex.Store new ;; ret old) m /\
  Mutex.Add delta m
    = (cur <- Mutex.Load ;; Mutex.Store (fadd cur delta) ;; ret (fadd cur delta)) m /\
  (Mutex.Store x ;; Mutex.Store new) m = Mutex.Store new m.
Proof.
  split; [ | split; [ | split ] ].
  - unfold bind. rewrite CAS2_Swap_eq, CAS2_Load_eq, CAS2_Store_eq. reflexivity.
  - unfold bind. rewrite CAS2_Add_alone, CAS2_Load_eq, CAS2_Store_eq. reflexivity.
  - unfold bind. rewrite !CAS2_Store_eq. reflexivity.
  - unfold bind.
    rewrite Mutex_Swap_eq, Mutex_Add_eq, Mutex_Load_eq, (Mutex_Store_eq new m),
      (Mutex_Store_eq x m).
    destruct m as [v [wr rd]]. unfold free. cbn [Mutex.l Mutex.f64 sync.writer sync.readers].
    destruct wr; cbn [negb andb]; [ repeat split | ].
    destruct rd as [ | rd ]; cbn [Nat.eqb].
    + rewrite !Mutex_Store_eq. repeat split.
    + rewrite !Mutex_Store_eq. repeat split.
Qed.

End Composition.

(** ** [runQ] on the first compare-and-swap variant, and the benchmark *)
Section Benchmark.
Context {rule : NaNRule}.

Lemma CAS_Load_eq (a : CAS.atomicFloatCAS) :
  CAS.Load a = Returns (Float64frombits (CAS.u64 a)) a.
Proof. destruct a. reflexivity. Qed.

Lemma CAS_Add_alone (fuel : nat) (delta : float64) (a : CAS.atomicFloatCAS) :
  CAS.Add (S fuel) [] delta a =
    Returns (fadd (Float64frombits (CAS.u64 a)) delta)
            (CAS.MkCAS (Float64bits (fadd (Float64frombits (CAS.u64 a)) delta))).
Proof. exact (CAS_Add_returns [] fuel delta a). Qed.

Lemma CAS_steps (n : N) (x : float64) :
  N.iter n CAS_step (CAS.MkCAS (Float64bits x))
  = CAS.MkCAS (Float64bits (N.iter n (fun y => fadd y one) x)).
Proof.
  induction n as [ | n IHn ] using N.peano_ind.
  - reflexivity.
  - rewrite !N.iter_succ, IHn. unfold CAS_step. cbn [CAS.u64].
    rewrite Float64frombits_Float64bits. reflexivity.
Qed.

Lemma runQ_CAS (fuel : nat) (adderCount loaderCount operationCount : Z) :
  0 <= adderCount -> 0 <= loaderCount -> 0 <= operationCount ->
  runQ (af := CAS_af64 fuel) adderCount loaderCount operationCount
       (CAS.NewAtomicFloatCAS (float64_of_int 0))
  = Returns (float64_ne (total (adderCount * operationCount))
               (fmul (float64_of_int 1)
                     (float64_of_int (int_mul adderCount operationCount))))
            (CAS.MkCAS (Float64bits (total (adderCount * operationCount)))).
Proof.
  intros HA HL HC.
  destruct (runQ_steps (af := CAS_af64 fuel) (fun _ => True) CAS_step
              (fun a => Float64frombits (CAS.u64 a))) with
    (adderCount := adderCount) (loaderCount := loaderCount)
    (operationCount := operationCount)
    (s := CAS.NewAtomicFloatCAS (float64_of_int 0)) as (_ & Hrun); try assumption.
  - intros s _. split; [ exact I | ]. eexists. apply CAS_Add_alone.
  - intros s _. apply CAS_Load_eq.
  - exact I.
  - rewrite Hrun. unfold CAS.NewAtomicFloatCAS.
    rewrite CAS_steps, count_up, Z2N.id by nia. cbn [CAS.u64].
    rewrite Float64frombits_Float64bits. reflexivity.
Qed.

Lemma check_passes (A C : Z) :
  0 <= A -> 0 <= C -> A * C <= 2 ^ 53 ->
  float64_ne (total (A * C)) (fmul (float64_of_int 1) (float64_of_int (int_mul A C))) = false.
Proof.
  intros HA HC Hmax. unfold total. rewrite Z.min_l by lia.
  rewrite int_mul_small, fmul_one_int, float64_ne_int by nia. reflexivity.
Qed.

(** X8.  The check of [runQ] also passes on the first compare-and-swap
    variant: after [A] adders of [C] calls of [Add(1)] each and any loaders,
    the container created with 0 holds the double [A*C], provided [A*C] is at
    most [2^53]. *)
Theorem runQ_passes_on_CAS (fuel : nat) (A L C : Z) :
  0 <= A -> 0 <= L -> 0 <= C -> A * C <= 2 ^ 53 ->
  runQ (af := CAS_af64 fuel) A L C (CAS.NewAtomicFloatCAS (float64_of_int 0))
    = Returns false (CAS.MkCAS (Float64bits (float64_of_int (A * C)))) /\
  CAS.Load (CAS.MkCAS (Float64bits (float64_of_int (A * C))))
    = Returns (float64_of_int (A * C)) (CAS.MkCAS (Float64bits (float64_of_int (A * C)))).
Proof.
  intros HA HL HC Hmax.
  rewrite runQ_CAS, check_passes by assumption.
  unfold total. rewrite Z.min_l by lia.
  rewrite CAS_Load_eq. cbn [CAS.u64]. rewrite Float64frombits_Float64bits.
  split; reflexivity.
Qed.

Lemma sub_benchmark_passes {T} (check : exec T bool) (new s' : T) (n : Z) :
  check new = Returns false s' ->
  times n (reported_to_B check new) false = Returns tt false.
Proof.
  intros Hcheck.
  destruct (times_steps (fun failed : bool => failed = false) (fun failed => failed)
              (reported_to_B check new)) with (n := n) (s := false) as (_ & [] & Hrun).
  - intros failed ->. split; [ reflexivity | ].
    exists tt. unfold reported_to_B. rewrite Hcheck. reflexivity.
  - reflexivity.
  - rewrite Hrun, N_iter_id. reflexivity.
Qed.

Lemma c_passes (N : Z -> sub_benchmark -> Z) (fuel : nat) (count : Z) :
  0 <= count -> count * itemsPerLoader <= 2 ^ 53 ->
  c N fuel count false = Returns tt false.
Proof.
  intros Hcount Hmax. unfold c, bind.
  assert (0 <= itemsPerLoader) by (unfold itemsPerLoader; lia).
  rewrite (sub_benchmark_passes _ _ (CAS.MkCAS (Float64bits (total (count * itemsPerLoader)))))
    by (rewrite runQ_CAS, check_passes by assumption; reflexivity).
  rewrite (sub_benchmark_passes _ _ (CAS2.MkCAS2 (Float64bits (total (count * itemsPerLoader)))))
    by (rewrite runQ_CAS2, check_passes by assumption; reflexivity).
  rewrite (sub_benchmark_passes _ _ (Mutex.MkMutex (total (count * itemsPerLoader)) sync.unlocked))
    by (rewrite runQ_Mutex, check_passes by assumption; reflexivity).
  reflexivity.
Qed.

(** X9.  [BenchmarkProducerConsumer] never reports an error: whatever number
    of iterations the framework chooses for each of its fifteen
    sub-benchmarks, every call of [runQ] passes its check, none panics and
    none is left waiting (the goroutines of a [runQ] run one after the
    other). *)
Theorem BenchmarkProducerConsumer_passes (N : Z -> sub_benchmark -> Z) (fuel : nat) :
  BenchmarkProducerConsumer N fuel false = Returns tt false.
Proof.
  unfold BenchmarkProducerConsumer, bind.
  rewrite !c_passes by (unfold itemsPerLoader; lia).
  reflexivity.
Qed.

End Benchmark.

(** ** What the check of [runQ] tells apart *)
Section Check.
Context {rule : NaNRule}.

Lemma to_spec_zero : to_spec (float64_of_int 0) = S754_zero false.
Proof. reflexivity. Qed.

(** Different integers below [2^53] compare different. *)
Lemma float64_ne_ints (a b : Z) :
  0 <= a < 2 ^ 53 -> 0 <= b < 2 ^ 53 -> a <> b ->
  float64_ne (float64_of_int a) (float64_of_int b) = true.
Proof.
  intros Ha Hb Hab. unfold float64_ne.
  destruct a as [ | pa | pa ]; try lia; destruct b as [ | pb | pb ]; try lia.
  - destruct (padding_exists pb ltac:(lia)) as (mb & ib & Hib & Hmb & Hdb & _).
    rewrite to_spec_zero, (to_spec_float64_of_int pb mb ib) by assumption. reflexivity.
  - destruct (padding_exists pa ltac:(lia)) as (ma & ia & Hia & Hma & Hda & _).
    rewrite to_spec_zero, (to_spec_float64_of_int pa ma ia) by assumption. reflexivity.
  - destruct (padding_exists pa ltac:(lia)) as (ma & ia & Hia & Hma & Hda & _).
    destruct (padding_exists pb ltac:(lia)) as (mb & ib & Hib & Hmb & Hdb & _).
    rewrite (to_spec_float64_of_int pa ma ia), (to_spec_float64_of_int pb mb ib)
      by assumption.
    unfold SFeqb, SFcompare.
    destruct (Z.compare_spec (- ia) (- ib)) as [Heq | Hlt | Hgt]; try reflexivity.
    assert (Hne : ma <> mb).
    { intros ->. assert (ia = ib) as -> by lia. rewrite Hmb in Hma.
      assert (0 < 2 ^ ib) by (apply Z.pow_pos_nonneg; lia). nia. }
    change (Pos.compare_cont Eq ma mb) with (Pos.compare ma mb).
    destruct (Pos.compare_spec ma mb); (contradiction || reflexivity).
Qed.

Lemma count_up_from (k : Z) (n : N) :
  0 <= k <= 2 ^ 53 ->
  N.iter n (fun x => fadd x one) (float64_of_int k)
  = float64_of_int (Z.min (k + Z.of_N n) (2 ^ 53)).
Proof.
  intros Hk. induction n as [ | n IHn ] using N.peano_ind.
  - cbn [N.iter Z.of_N]. rewrite Z.add_0_r, Z.min_l by lia. reflexivity.
  - rewrite N.iter_succ, IHn, N2Z.inj_succ.
    destruct (Z.ltb_spec (k + Z.of_N n) (2 ^ 53)) as [Hlt | Hge].
    + rewrite (Z.min_l (k + Z.of_N n)) by lia.
      rewrite (Z.min_l (k + Z.succ (Z.of_N n))) by lia.
      unfold one. rewrite fadd_int_succ by lia. f_equal. lia.
    + rewrite !Z.min_r by lia. apply fadd_int_stuck.
Qed.

(** X10.  The check of [runQ] assumes a container that starts at 0: on one
    created with an integer [k > 0] the adders reach [k + A*C], and [runQ]
    reports the difference (all numbers below [2^53]); in both variants. *)
Theorem runQ_reports_nonzero_start (fuel : nat) (k A L C : Z) :
  0 < k -> 0 <= A -> 0 <= L -> 0 <= C -> k + A * C < 2 ^ 53 ->
  runQ (af := CAS2_af64 fuel) A L C (CAS2.NewAtomicFloatCAS2 (float64_of_int k))
    = Returns true (CAS2.MkCAS2 (Float64bits (float64_of_int (k + A * C)))) /\
  runQ (af := Mutex_af64) A L C (Mutex.NewAtomicFloatMutex (float64_of_int k))
    = Returns true (Mutex.MkMutex (float64_of_int (k + A * C)) sync.unlocked).
Proof.
  intros Hk HA HL HC Hmax.
  assert (Hwant : fmul (float64_of_int 1) (float64_of_int (int_mul A C))
                  = float64_of_int (A * C))
    by (rewrite int_mul_small, fmul_one_int by nia; reflexivity).
  assert (Hne : float64_ne (float64_of_int (k + A * C)) (float64_of_int (A * C)) = true)
    by (apply float64_ne_ints; nia).
  split.
  - destruct (runQ_steps (af := CAS2_af64 fuel) (fun _ => True) CAS2_step
                (fun a => Float64frombits (CAS2.u64 a))) with
      (adderCount := A) (loaderCount := L) (operationCount := C)
      (s := CAS2.NewAtomicFloatCAS2 (float64_of_int k)) as (_ & Hrun); try assumption.
    + intros s _. split; [ exact I | ]. eexists. apply CAS2_Add_alone.
    + intros s _. apply CAS2_Load_eq.
    + exact I.
    + rewrite Hrun, Hwant. unfold CAS2.NewAtomicFloatCAS2.
      rewrite CAS2_steps, count_up_from, Z2N.id, Z.min_l by nia. cbn [CAS2.u64].
      rewrite Float64frombits_Float64bits, Hne. reflexivity.
  - destruct (runQ_steps (af := Mutex_af64) (fun m => Mutex.l m = sync.unlocked) Mutex_step
                Mutex.f64) with
      (adderCount := A) (loaderCount := L) (operationCount := C)
      (s := Mutex.NewAtomicFloatMutex (float64_of_int k)) as (_ & Hrun); try assumption.
    + intros s Hs. split; [ exact Hs | ]. eexists. cbn [Add Mutex_af64].
      rewrite Mutex_Add_eq, Hs. cbn [free sync.writer sync.readers negb andb Nat.eqb].
      unfold Mutex_step. rewrite Hs. reflexivity.
    + intros s Hs. cbn [Load Mutex_af64]. rewrite Mutex_Load_eq, Hs. reflexivity.
    + reflexivity.
    + rewrite Hrun, Hwant. unfold Mutex.NewAtomicFloatMutex.
      rewrite Mutex_steps, count_up_from, Z2N.id, Z.min_l by nia. cbn [Mutex.f64].
      rewrite Hne. reflexivity.
Qed.

End Check.

(** ** Reading what was written *)
Section ReadYourWrites.
Context {rule : NaNRule}.

(** X11.  A [Load] right after a write returns what was written: the value
    given to [Store] or [Swap], and after [Add] the very value [Add]
    returned; in the three variants (the locking one with its lock free). *)
Theorem Load_returns_last_write (a2 : CAS2.atomicFloatCAS2) (a1 : CAS.atomicFloatCAS)
    (x new delta : float64) (fuel : nat) :
  ((CAS2.Store new ;; CAS2.Load) a2 = Returns new (CAS2.MkCAS2 (Float64bits new)) /\
   (CAS2.Swap new ;; CAS2.Load) a2 = Returns new (CAS2.MkCAS2 (Float64bits new)) /\
   exists sum a',
     (s <- CAS2.Add (S fuel) [] delta ;; v <- CAS2.Load ;; ret (s, v)) a2
       = Returns (sum, sum) a') /\
  ((CAS.Store new ;; CAS.Load) a1 = Returns new (CAS.MkCAS (Float64bits new)) /\
   (CAS.Swap new ;; CAS.Load) a1 = Returns new (CAS.MkCAS (Float64bits new)) /\
   exists sum a',
     (s <- CAS.Add (S fuel) [] delta ;; v <- CAS.Load ;; ret (s, v)) a1
       = Returns (sum, sum) a') /\
  ((Mutex.Store new ;; Mutex.Load) (Mutex.MkMutex x sync.unlocked)
     = Returns new (Mutex.MkMutex new sync.unlocked) /\
   (Mutex.Swap new ;; Mutex.Load) (Mutex.MkMutex x sync.unlocked)
     = Returns new (Mutex.MkMutex new sync.unlocked) /\
   exists sum m',
     (s <- Mutex.Add delta ;; v <- Mutex.Load ;; ret (s, v)) (Mutex.MkMutex x sync.unlocked)
       = Returns (sum, sum) m').
Proof.
  split; [ | split ].
  - unfold bind. rewrite CAS2_Store_eq, CAS2_Swap_eq, CAS2_Add_alone, !CAS2_Load_eq.
    cbn [CAS2.u64]. rewrite !Float64frombits_Float64bits.
    repeat split. do 2 eexists. unfold ret. reflexivity.
  - unfold bind. rewrite CAS_Add_alone, !CAS_Load_eq.
    destruct a1 as [w]. cbn [CAS.u64].
    change (CAS.Store new (CAS.MkCAS w)) with (Returns tt (CAS.MkCAS (Float64bits new))).
    change (CAS.Swap new (CAS.MkCAS w))
      with (Returns (Float64frombits w) (CAS.MkCAS (Float64bits new))).
    cbn iota beta. rewrite !CAS_Load_eq. cbn [CAS.u64].
    rewrite !Float64frombits_Float64bits.
    repeat split. do 2 eexists. unfold ret. reflexivity.
  - unfold bind. rewrite Mutex_Store_eq, Mutex_Swap_eq, Mutex_Add_eq.
    cbn [Mutex.l Mutex.f64 free sync.unlocked sync.writer sync.readers negb andb Nat.eqb].
    rewrite !Mutex_Load_eq.
    repeat split. do 2 eexists. unfold ret. reflexivity.
Qed.

End ReadYourWrites.

(** ** A NaN in the container *)
Section StickyNaN.
Context {rule : NaNRule}.

Lemma NaN_Adds_CAS2 (fuel : nat) (deltas : list float64) :
  forall x : float64,
  isNaN x = true ->
  exists (rs : list float64) (y : float64),
    run (CAS2.Add (S fuel) []) deltas (CAS2.MkCAS2 (Float64bits x))
      = Returns rs (CAS2.MkCAS2 (Float64bits y)) /\
    Forall (fun r => isNaN r = true) rs /\ isNaN y = true.
Proof.
  induction deltas as [ | d deltas IH ]; intros x Hx.
  - exists [], x. repeat split; [ constructor | exact Hx ].
  - assert (Hs : isNaN (fadd x d) = true) by (apply fadd_NaN; rewrite Hx; reflexivity).
    destruct (IH (fadd x d) Hs) as (rs & y & Hrun & Hrs & Hy).
    exists (fadd x d :: rs), y. cbn [run]. unfold bind.
    rewrite CAS2_Add_alone. cbn [CAS2.u64]. rewrite Float64frombits_Float64bits, Hrun.
    repeat split; [ constructor; assumption | exact Hy ].
Qed.

Lemma NaN_Adds_Mutex (deltas : list float64) :
  forall x : float64,
  isNaN x = true ->
  exists (rs : list float64) (y : float64),
    run Mutex.Add deltas (Mutex.MkMutex x sync.unlocked)
      = Returns rs (Mutex.MkMutex y sync.unlocked) /\
    Forall (fun r => isNaN r = true) rs /\ isNaN y = true.
Proof.
  induction deltas as [ | d deltas IH ]; intros x Hx.
  - exists [], x. repeat split; [ constructor | exact Hx ].
  - assert (Hs : isNaN (fadd x d) = true) by (apply fadd_NaN; rewrite Hx; reflexivity).
    destruct (IH (fadd x d) Hs) as (rs & y & Hrun & Hrs & Hy).
    exists (fadd x d :: rs), y. cbn [run]. unfold bind.
    rewrite Mutex_Add_eq.
    cbn [Mutex.l Mutex.f64 free sync.unlocked sync.writer sync.readers negb andb Nat.eqb].
    rewrite Hrun.
    repeat split; [ constructor; assumption | exact Hy ].
Qed.

(** X12.  A NaN stays: on a container that holds a NaN, every [Add],
    whatever its argument, returns a NaN and leaves a NaN, so that a final
    [Load] returns a NaN; in both variants. *)
Theorem NaN_is_absorbing (fuel : nat) (x : float64) (deltas : list float64) :
  isNaN x = true ->
  (exists (rs : list float64) (final : float64) (a : CAS2.atomicFloatCAS2),
     run (CAS2.Add (S fuel) []) deltas (CAS2.NewAtomicFloatCAS2 x) = Returns rs a /\
     CAS2.Load a = Returns final a /\
     Forall (fun r => isNaN r = true) rs /\ isNaN final = true) /\
  (exists (rs : list float64) (final : float64) (m : Mutex.atomicFloatMutex),
     run Mutex.Add deltas (Mutex.NewAtomicFloatMutex x) = Returns rs m /\
     Mutex.Load m = Returns final m /\
     Forall (fun r => isNaN r = true) rs /\ isNaN final = true).
Proof.
  intros Hx. split.
  - destruct (NaN_Adds_CAS2 fuel deltas x Hx) as (rs & y & Hrun & Hrs & Hy).
    exists rs, y, (CAS2.MkCAS2 (Float64bits y)).
    rewrite CAS2_Load_eq. cbn [CAS2.u64]. rewrite Float64frombits_Float64bits.
    repeat split; assumption.
  - destruct (NaN_Adds_Mutex deltas x Hx) as (rs & y & Hrun & Hrs & Hy).
    exists rs, y, (Mutex.MkMutex y sync.unlocked).
    rewrite Mutex_Load_eq. repeat split; assumption.
Qed.

End StickyNaN.

(** ** No update is lost *)
Section NoLostUpdate.
Context {rule : NaNRule}.

Lemma float64_of_int_bits_differ (a b : Z) :
  0 <= a < 2 ^ 53 -> 0 <= b < 2 ^ 53 -> a <> b ->
  (Float64bits (float64_of_int a) =? Float64bits (float64_of_int b)) = false.
Proof.
  intros Ha Hb Hab. apply Z.eqb_neq. intros Heq.
  apply Float64bits_inj in Heq.
  pose proof (float64_ne_ints a b Ha Hb Hab) as Hne.
  rewrite Heq, float64_ne_int in Hne by lia. discriminate Hne.
Qed.

Lemma adders_schedule_changing (ds : list Z) :
  forall k : Z,
  0 <= k -> Forall (fun d => 0 < d) ds -> k + sumZ ds < 2 ^ 53 ->
  all_changing (adders_schedule k ds) (Float64bits (float64_of_int k)) = true.
Proof.
  induction ds as [ | d ds IH ]; intros k Hk Hds Hsum.
  - reflexivity.
  - inversion Hds as [ | ? ? Hd Hds' ]; subst.
    assert (Hnn : 0 <= sumZ ds)
      by (apply sumZ_nonneg; eapply Forall_impl; [ | exact Hds' ]; cbv beta; lia).
    cbn [sumZ fold_right] in Hsum. fold (sumZ ds) in Hsum.
    unfold adders_schedule. cbn [totals map all_changing].
    rewrite float64_of_int_bits_differ by lia. cbn [negb andb].
    apply IH; (assumption || lia).
Qed.

Lemma adders_schedule_last (ds : list Z) :
  forall k : Z,
  last (writes (adders_schedule k ds)) (Float64bits (float64_of_int k))
  = Float64bits (float64_of_int (k + sumZ ds)).
Proof.
  induction ds as [ | d ds IH ]; intros k.
  - cbn [sumZ fold_right]. rewrite Z.add_0_r. reflexivity.
  - unfold adders_schedule. cbn [totals map writes].
    rewrite last_cons_default. fold (adders_schedule (k + d) ds).
    rewrite IH. cbn [sumZ fold_right]. fold (sumZ ds). rewrite Z.add_assoc. reflexivity.
Qed.

(** X13.  No update is lost: when, attempt after attempt, other goroutines
    get their own [Add]s of integers [d1 > 0], ..., [dn > 0] in between the
    load and the compare-and-swap of a call [Add(d)], that call still
    returns, and it leaves the total of all of them, [k + d1 + ... + dn + d]
    (all numbers below [2^53]). *)
Theorem Add_loses_no_update (k d : Z) (ds : list Z) :
  0 <= k -> 0 <= d -> Forall (fun d' => 0 < d') ds -> k + sumZ ds + d < 2 ^ 53 ->
  CAS2.Add (S (length ds)) (adders_schedule k ds) (float64_of_int d)
           (CAS2.NewAtomicFloatCAS2 (float64_of_int k))
    = Returns (float64_of_int (k + sumZ ds + d))
              (CAS2.MkCAS2 (Float64bits (float64_of_int (k + sumZ ds + d)))) /\
  CAS.Add (S (length ds)) (adders_schedule k ds) (float64_of_int d)
          (CAS.NewAtomicFloatCAS (float64_of_int k))
    = Returns (float64_of_int (k + sumZ ds + d))
              (CAS.MkCAS (Float64bits (float64_of_int (k + sumZ ds + d)))).
Proof.
  intros Hk Hd Hds Hsum.
  assert (Hnn : 0 <= sumZ ds)
    by (apply sumZ_nonneg; eapply Forall_impl; [ | exact Hds ]; cbv beta; lia).
  assert (Hlen : length (adders_schedule k ds) = length ds).
  { unfold adders_schedule. rewrite length_map. clear. revert k.
    induction ds as [ | d ds IH ]; intros k; [ reflexivity | cbn; now rewrite IH ]. }
  assert (Hpre : preimage (adders_schedule k ds) (Float64bits (float64_of_int k))
                 = Float64bits (float64_of_int (k + sumZ ds))).
  { rewrite preimage_all_changing by (apply adders_schedule_changing; (assumption || lia)).
    apply adders_schedule_last. }
  split.
  - pose proof (CAS2_Add_returns (adders_schedule k ds) 0 (float64_of_int d)
                  (CAS2.NewAtomicFloatCAS2 (float64_of_int k))) as Hret.
    rewrite Nat.add_0_r, Hlen in Hret. rewrite Hret.
    unfold CAS2.NewAtomicFloatCAS2. cbn [CAS2.u64].
    rewrite Hpre, Float64frombits_Float64bits, fadd_int_add by lia. reflexivity.
  - pose proof (CAS_Add_returns (adders_schedule k ds) 0 (float64_of_int d)
                  (CAS.NewAtomicFloatCAS (float64_of_int k))) as Hret.
    rewrite Nat.add_0_r, Hlen in Hret. rewrite Hret.
    unfold CAS.NewAtomicFloatCAS. cbn [CAS.u64].
    rewrite Hpre, Float64frombits_Float64bits, fadd_int_add by lia. reflexivity.
Qed.

End NoLostUpdate.

(** ** Concrete runs of the further properties *)
Section MoreRuns.

(** Adding 2, 3 and 5 to 1. *)
Lemma integer_Adds_exact_run :
  0 <= 1 /\ Forall (fun d => 0 <= d) [2; 3; 5] /\ 1 + sumZ [2; 3; 5] < 2 ^ 53 /\
  (exists a : CAS2.atomicFloatCAS2,
     run (fun d => CAS2.Add 1 [] (float64_of_int d)) [2; 3; 5]
         (CAS2.NewAtomicFloatCAS2 (float64_of_int 1))
       = Returns (map float64_of_int [3; 6; 11]) a /\
     CAS2.Load a = Returns (float64_of_int 11) a).
Proof.
  assert (H : Forall (fun d => 0 <= d) [2; 3; 5]) by (repeat constructor; lia).
  split; [ lia | ]. split; [ exact H | ]. split; [ cbn; lia | ].
  exact (proj1 (integer_Adds_exact (rule := amd64_rule) 0 1 [2; 3; 5]
                  ltac:(lia) H ltac:(cbn; lia))).
Defined.

(** 1, 2, 3 and 3, 1, 2. *)
Lemma integer_Adds_any_order_run :
  Permutation [1; 2; 3] [3; 1; 2] /\
  0 <= 0 /\ Forall (fun d => 0 <= d) [1; 2; 3] /\ 0 + sumZ [1; 2; 3] < 2 ^ 53 /\
  (exists (rs rs' : list float64) (m : Mutex.atomicFloatMutex),
     run (fun d => Mutex.Add (float64_of_int d)) [1; 2; 3]
         (Mutex.NewAtomicFloatMutex (float64_of_int 0)) = Returns rs m /\
     run (fun d => Mutex.Add (float64_of_int d)) [3; 1; 2]
         (Mutex.NewAtomicFloatMutex (float64_of_int 0)) = Returns rs' m).
Proof.
  assert (HP : Permutation [1; 2; 3] [3; 1; 2])
    by (symmetry; exact (Permutation_cons_append [1; 2] 3)).
  assert (H : Forall (fun d => 0 <= d) [1; 2; 3]) by (repeat constructor; lia).
  split; [ exact HP | ]. split; [ lia | ]. split; [ exact H | ]. split; [ cbn; lia | ].
  exact (proj2 (integer_Adds_any_order (rule := amd64_rule) 0 0 [1; 2; 3] [3; 1; 2]
                  HP ltac:(lia) H ltac:(cbn; lia))).
Defined.

(** Five calls past [2^53]. *)
Lemma Add_one_saturates_run :
  0 <= 2 ^ 53 + 5 /\
  adds_then_Load (af := CAS2_af64 0) (2 ^ 53 + 5) (CAS2.NewAtomicFloatCAS2 (float64_of_int 0))
    = Returns (float64_of_int (Z.min (2 ^ 53 + 5) (2 ^ 53)))
              (CAS2.MkCAS2 (Float64bits (float64_of_int (Z.min (2 ^ 53 + 5) (2 ^ 53))))).
Proof.
  split; [ lia | ].
  exact (proj1 (Add_one_saturates (rule := amd64_rule) 0 (2 ^ 53 + 5) ltac:(lia))).
Defined.

(** Two attempts, both interfered. *)
Lemma Add_retries_while_interfered_run :
  all_changing [Some 5; Some 7] 0 = true /\ (2 <= length [Some 5; Some 7])%nat /\
  CAS2.Add 2 [Some 5; Some 7] (float64_of_int 1) (CAS2.MkCAS2 0) = Waits.
Proof.
  split; [ reflexivity | ]. split; [ apply le_n | ].
  exact (proj1 (Add_retries_while_interfered (rule := amd64_rule)
                  [Some 5; Some 7] 2 (float64_of_int 1) 0 eq_refl (le_n 2))).
Defined.

(** The first count of the benchmark. *)
Lemma runQ_passes_on_CAS_run :
  0 <= 10 /\ 0 <= 10 /\ 0 <= 1000 /\ 10 * 1000 <= 2 ^ 53 /\
  runQ (af := CAS_af64 0) 10 10 1000 (CAS.NewAtomicFloatCAS (float64_of_int 0))
    = Returns false (CAS.MkCAS (Float64bits (float64_of_int (10 * 1000)))).
Proof.
  split; [ lia | ]. split; [ lia | ]. split; [ lia | ]. split; [ lia | ].
  exact (proj1 (runQ_passes_on_CAS (rule := amd64_rule) 0 10 10 1000
                  ltac:(lia) ltac:(lia) ltac:(lia) ltac:(lia))).
Defined.

(** The scenario of the specification on a container created with 1. *)
Lemma runQ_reports_nonzero_start_run :
  0 < 1 /\ 0 <= 4 /\ 0 <= 0 /\ 0 <= 500 /\ 1 + 4 * 500 < 2 ^ 53 /\
  runQ (af := CAS2_af64 0) 4 0 500 (CAS2.NewAtomicFloatCAS2 (float64_of_int 1))
    = Returns true (CAS2.MkCAS2 (Float64bits (float64_of_int (1 + 4 * 500)))).
Proof.
  split; [ lia | ]. split; [ lia | ]. split; [ lia | ]. split; [ lia | ]. split; [ lia | ].
  exact (proj1 (runQ_reports_nonzero_start (rule := amd64_rule) 0 1 4 0 500
                  ltac:(lia) ltac:(lia) ltac:(lia) ltac:(lia) ltac:(lia))).
Defined.

(** Two [Add]s on a quiet NaN. *)
Lemma NaN_is_absorbing_run :
  isNaN (Float64frombits 0x7FF8000000000000) = true /\
  (exists (rs : list float64) (final : float64) (a : CAS2.atomicFloatCAS2),
     run (CAS2.Add 1 []) [float64_of_int 1; float64_of_int 2]
         (CAS2.NewAtomicFloatCAS2 (Float64frombits 0x7FF8000000000000)) = Returns rs a /\
     CAS2.Load a = Returns final a /\
     Forall (fun r => isNaN r = true) rs /\ isNaN final = true).
Proof.
  split; [ reflexivity | ].
  exact (proj1 (NaN_is_absorbing (rule := amd64_rule) 0
                  (Float64frombits 0x7FF8000000000000)
                  [float64_of_int 1; float64_of_int 2] eq_refl)).
Defined.

(** Two other adders of 1 each get in before an [Add(1)] on 0. *)
Lemma Add_loses_no_update_run :
  0 <= 0 /\ 0 <= 1 /\ Forall (fun d' => 0 < d') [1; 1] /\ 0 + sumZ [1; 1] + 1 < 2 ^ 53 /\
  CAS2.Add 3 (adders_schedule 0 [1; 1]) (float64_of_int 1)
           (CAS2.NewAtomicFloatCAS2 (float64_of_int 0))
    = Returns (float64_of_int 3) (CAS2.MkCAS2 (Float64bits (float64_of_int 3))).
Proof.
  assert (H : Forall (fun d' => 0 < d') [1; 1]) by (repeat constructor; lia).
  split; [ lia | ]. split; [ lia | ]. split; [ exact H | ]. split; [ cbn; lia | ].
  exact (proj1 (Add_loses_no_update (rule := amd64_rule) 0 1 [1; 1]
                  ltac:(lia) ltac:(lia) H ltac:(cbn; lia))).
Defined.

End MoreRuns.
